(** * Agentchara: the activity-to-state core of [avatar_overlay.py]

    A shallow embedding of the state resolver, the filesystem activity
    filter and the log tailer, with the properties of the design document
    stated over it; then of the state and character logic of the overlay
    and of the event handlers of the application controller.

    Conventions.
    - Python [float] timestamps and durations are exact rationals ([Q]);
      rounding of binary floating point is outside the model.
    - [time.time()] is an input: every function that reads the clock takes
      the reading(s) it consumes as arguments, in the order of the reads.
    - A raised exception is an explicit outcome ([Raised]); [try/except]
      is a handler on outcomes.
    - Calls into Qt are recorded, not interpreted; window geometry, mouse
      and keyboard handling and printed warnings are left out. *)

From Stdlib Require Import QArith Lqa NArith Ascii String.
From Stdlib.Strings Require Import Byte.
From stdpp Require Import base decidable option list strings gmap sorting.

Local Open Scope Q_scope.

(** ** Time *)

Module Time.

Definition t := Q.

(** The test [a < b] on two clock values. *)
Definition ltb (a b : t) : bool := negb (Qle_bool b a).

(** Python's two-argument [max]: the first argument unless the second is
    strictly greater. *)
Definition max (a b : t) : t := if ltb a b then b else a.

End Time.

Bind Scope Q_scope with Time.t.

(** ** State machine *)

(** [class State(Enum)]: avatar states, higher value = higher priority. *)
Inductive State : Set :=
  | IDLE | THINKING | TYPING | RUNNING | SUCCESS | ERROR.

Definition State_value (s : State) : nat :=
  match s with
  | IDLE => 0 | THINKING => 1 | TYPING => 2
  | RUNNING => 3 | SUCCESS => 4 | ERROR => 5
  end.

Global Instance State_eq_dec : EqDecision State.
Proof. solve_decision. Defined.

(** [@dataclass StateTimestamps]: last occurrence time of each trigger. *)
Record StateTimestamps := mkTimestamps {
  last_fs_activity : Time.t;
  last_log_activity : Time.t;
  last_running : Time.t;
  last_success : Time.t;
  last_error : Time.t
}.

(** The dataclass defaults: every field is [0.0]. *)
Definition StateTimestamps_default : StateTimestamps :=
  mkTimestamps 0 0 0 0 0.

(** [@dataclass StateConfig]: timing thresholds, in seconds. *)
Record StateConfig := mkConfig {
  error_duration : Time.t;
  success_duration : Time.t;
  running_duration : Time.t;
  typing_threshold : Time.t;
  thinking_threshold : Time.t
}.

Definition StateConfig_default : StateConfig :=
  mkConfig 6 4 3 1.2 8.

(** [class StateResolver]: the configuration and the ledger it owns. *)
Record StateResolver := mkResolver {
  config : StateConfig;
  timestamps : StateTimestamps
}.

(** What a call does: it returns a value or raises. *)
Inductive Outcome (A : Type) : Type :=
  | Returned (a : A)
  | Raised (msg : string).
Arguments Returned {A} a.
Arguments Raised {A} msg.

Global Instance Outcome_eq_dec {A} `{EqDecision A} : EqDecision (Outcome A).
Proof. solve_decision. Defined.

(** [StateResolver.__init__(config=None)]: [config or StateConfig()], a
    dataclass instance being truthy, and a fresh ledger. Nothing in the
    body raises. *)
Definition StateResolver_init (cfg : option StateConfig)
  : Outcome StateResolver :=
  Returned (mkResolver (default StateConfig_default cfg)
                       StateTimestamps_default).

(** [StateResolver.resolve], with [now] the value read from the clock. *)
Definition resolve (r : StateResolver) (now : Time.t) : State :=
  let cfg := config r in
  let ts := timestamps r in
  if Time.ltb (now - last_error ts) (error_duration cfg) then ERROR
  else if Time.ltb (now - last_success ts) (success_duration cfg) then SUCCESS
  else if Time.ltb (now - last_running ts) (running_duration cfg) then RUNNING
  else if Time.ltb (now - last_fs_activity ts) (typing_threshold cfg) then TYPING
  else
    let last_activity :=
      Time.max (last_fs_activity ts) (last_log_activity ts) in
    if Time.ltb (now - last_activity) (thinking_threshold cfg) then THINKING
    else IDLE.

(** Field assignments on the ledger of a resolver. *)
Definition set_last_fs_activity (v : Time.t) (r : StateResolver) :=
  let ts := timestamps r in
  mkResolver (config r)
    (mkTimestamps v (last_log_activity ts) (last_running ts)
                  (last_success ts) (last_error ts)).

Definition set_last_log_activity (v : Time.t) (r : StateResolver) :=
  let ts := timestamps r in
  mkResolver (config r)
    (mkTimestamps (last_fs_activity ts) v (last_running ts)
                  (last_success ts) (last_error ts)).

Definition set_last_running (v : Time.t) (r : StateResolver) :=
  let ts := timestamps r in
  mkResolver (config r)
    (mkTimestamps (last_fs_activity ts) (last_log_activity ts) v
                  (last_success ts) (last_error ts)).

Definition set_last_success (v : Time.t) (r : StateResolver) :=
  let ts := timestamps r in
  mkResolver (config r)
    (mkTimestamps (last_fs_activity ts) (last_log_activity ts)
                  (last_running ts) v (last_error ts)).

Definition set_last_error (v : Time.t) (r : StateResolver) :=
  let ts := timestamps r in
  mkResolver (config r)
    (mkTimestamps (last_fs_activity ts) (last_log_activity ts)
                  (last_running ts) (last_success ts) v).

(** The mutators. [on_running], [on_success] and [on_error] read the clock
    once themselves ([t]) and once more inside the nested call of
    [on_log_activity] ([t']). *)
Definition on_fs_activity (t : Time.t) (r : StateResolver) : StateResolver :=
  set_last_fs_activity t r.

Definition on_log_activity (t : Time.t) (r : StateResolver) : StateResolver :=
  set_last_log_activity t r.

Definition on_running (t t' : Time.t) (r : StateResolver) : StateResolver :=
  on_log_activity t' (set_last_running t r).

Definition on_success (t t' : Time.t) (r : StateResolver) : StateResolver :=
  on_log_activity t' (set_last_success t r).

Definition on_error (t t' : Time.t) (r : StateResolver) : StateResolver :=
  on_log_activity t' (set_last_error t r).

(** ** File system watcher *)

(** [str.split(sep)] for a one-character separator: the pieces between
    the separators, empty pieces included; never an empty list. *)
Fixpoint str_split (sep : ascii) (s : string) : list string :=
  match s with
  | EmptyString => [EmptyString]
  | String c s' =>
      if Ascii.eqb c sep then EmptyString :: str_split sep s'
      else match str_split sep s' with
           | [] => [String c EmptyString]
           | piece :: pieces => String c piece :: pieces
           end
  end.

(** The root of a POSIX path: ["/"] for a leading slash, ["//"] for
    exactly two of them, none for a relative path. *)
Definition path_root (path : string) : list string :=
  match path with
  | String "/" (String "/" (String "/" _)) => ["/"%string]
  | String "/" (String "/" _) => ["//"%string]
  | String "/" _ => ["/"%string]
  | _ => []
  end.

(** [Path(path).parts] (POSIX flavour): the root, if any, then the
    components between slashes; empty components and ["."] are dropped. *)
Definition Path_parts (path : string) : list string :=
  path_root path ++
  filter (λ x, x ≠ EmptyString ∧ x ≠ "."%string) (str_split "/" path).

(** [ProjectWatcher.DEFAULT_EXCLUDES]. *)
Definition DEFAULT_EXCLUDES : gset string :=
  list_to_set
    [ ".git"; ".svn"; ".hg";
      "node_modules"; "__pycache__"; ".venv"; "venv";
      ".pytest_cache"; ".mypy_cache";
      "dist"; "build"; ".next"; ".nuxt" ]%string.

(** [class ProjectWatcher]; the signaler is the output of [on_any_event]. *)
Record ProjectWatcher := mkWatcher {
  excludes : gset string
}.

(** [ProjectWatcher.__init__(signaler, excludes=None)]:
    [self.excludes = excludes or self.DEFAULT_EXCLUDES]; [None] and the
    empty set are falsy. *)
Definition ProjectWatcher_init (excl : option (gset string)) : ProjectWatcher :=
  mkWatcher
    match excl with
    | Some X => if decide (X = ∅) then DEFAULT_EXCLUDES else X
    | None => DEFAULT_EXCLUDES
    end.

(** [ProjectWatcher._should_ignore]:
    [any(part in self.excludes for part in Path(path).parts)]. *)
Definition _should_ignore (w : ProjectWatcher) (path : string) : bool :=
  existsb (λ part, bool_decide (part ∈ excludes w)) (Path_parts path).

(** What the handler reads of a [FileSystemEvent]. *)
Record FileSystemEvent := mkEvent {
  is_directory : bool;
  src_path : string
}.

(** [ProjectWatcher.on_any_event]: [true] when [signaler.activity.emit()]
    is reached. *)
Definition on_any_event (w : ProjectWatcher) (event : FileSystemEvent) : bool :=
  if is_directory event then false
  else if _should_ignore w (src_path event) then false
  else true.

(** The parsing of [--exclude] in [main]: [None] unless the option is a
    non-empty string, else the set of its comma-separated pieces. *)
Definition main_excludes (exclude : option string) : option (gset string) :=
  match exclude with
  | None => None
  | Some EmptyString => None
  | Some s => Some (list_to_set (str_split "," s))
  end.

(** [AvatarApp.start] hands the parsed set to the watcher unchanged:
    [ProjectWatcher(self.fs_signaler, self.excludes)]. *)
Definition app_watcher (exclude : option string) : ProjectWatcher :=
  ProjectWatcher_init (main_excludes exclude).

(** ** Log watcher *)

(** Decoded text is a sequence of Unicode code points. *)
Definition text := list N.

Definition codepoints (s : string) : text :=
  map N_of_ascii (list_ascii_of_string s).

(** *** Reading the file: [open(..., "r", encoding="utf-8", errors="ignore")] *)

Definition is_continuation (b : N) : bool := ((0x80 <=? b) && (b <=? 0xBF))%N.

(** The second byte of a three-byte sequence: a continuation byte, not an
    overlong form after [E0], not a surrogate after [ED]. *)
Definition second_of_3 (b1 b2 : N) : bool :=
  is_continuation b2 &&
  (if (b1 =? 0xE0)%N then (0xA0 <=? b2)%N
   else if (b1 =? 0xED)%N then (b2 <? 0xA0)%N else true).

(** The second byte of a four-byte sequence: a continuation byte, not an
    overlong form after [F0], not beyond U+10FFFF after [F4]. *)
Definition second_of_4 (b1 b2 : N) : bool :=
  is_continuation b2 &&
  (if (b1 =? 0xF0)%N then (0x90 <=? b2)%N
   else if (b1 =? 0xF4)%N then (b2 <? 0x90)%N else true).

(** The UTF-8 decoder with [errors="ignore"], on byte values: an invalid
    start byte is skipped; on an invalid continuation byte the bytes
    before it are skipped and decoding resumes at that byte; a sequence
    cut short by the end of the data is dropped. It never raises. *)
Fixpoint utf8_decode_ignore (bs : list N) : text :=
  match bs with
  | [] => []
  | b1 :: r1 =>
    if (b1 <? 0x80)%N then b1 :: utf8_decode_ignore r1
    else if (b1 <? 0xC2)%N then utf8_decode_ignore r1
    else if (b1 <? 0xE0)%N then
      match r1 with
      | [] => []
      | b2 :: r2 =>
        if is_continuation b2
        then ((b1 - 0xC0) * 64 + (b2 - 0x80))%N :: utf8_decode_ignore r2
        else utf8_decode_ignore r1
      end
    else if (b1 <? 0xF0)%N then
      match r1 with
      | [] => []
      | b2 :: r2 =>
        if second_of_3 b1 b2 then
          match r2 with
          | [] => []
          | b3 :: r3 =>
            if is_continuation b3
            then ((b1 - 0xE0) * 4096 + (b2 - 0x80) * 64 + (b3 - 0x80))%N
                 :: utf8_decode_ignore r3
            else utf8_decode_ignore r2
          end
        else utf8_decode_ignore r1
      end
    else if (b1 <? 0xF5)%N then
      match r1 with
      | [] => []
      | b2 :: r2 =>
        if second_of_4 b1 b2 then
          match r2 with
          | [] => []
          | b3 :: r3 =>
            if is_continuation b3 then
              match r3 with
              | [] => []
              | b4 :: r4 =>
                if is_continuation b4
                then ((b1 - 0xF0) * 262144 + (b2 - 0x80) * 4096
                      + (b3 - 0x80) * 64 + (b4 - 0x80))%N
                     :: utf8_decode_ignore r4
                else utf8_decode_ignore r3
              end
            else utf8_decode_ignore r2
          end
        else utf8_decode_ignore r1
      end
    else utf8_decode_ignore r1
  end.

(** Universal newlines (the default [newline=None]): ["\r\n"] and a lone
    ["\r"] are read as ["\n"]. *)
Fixpoint translate_newlines (s : text) : text :=
  match s with
  | [] => []
  | c :: rest =>
    if (c =? 13)%N then
      10%N :: match rest with
              | [] => []
              | c' :: rest' =>
                if (c' =? 10)%N then translate_newlines rest'
                else translate_newlines rest
              end
    else c :: translate_newlines rest
  end.

(** [f.seek(pos); f.read()] on a file holding [data]: the text decoded
    from the bytes at and after [pos]. *)
Definition read_from (data : list byte) (pos : nat) : text :=
  translate_newlines (utf8_decode_ignore (map Byte.to_N (drop pos data))).

(** [f.tell()] after that read: the byte offset of the end of the data,
    or [pos] itself when the seek went past the end. *)
Definition tell_after_read (data : list byte) (pos : nat) : nat :=
  (pos + length (drop pos data))%nat.

(** *** Patterns *)

(** What [re.IGNORECASE] identifies with a lowercase ASCII letter: the
    uppercase letter and, for [i], [s] and [k], the four letters U+0130,
    U+0131, U+017F and U+212A. Every other code point is left alone. *)
Definition ignorecase (c : N) : N :=
  if ((65 <=? c) && (c <=? 90))%N then (c + 32)%N
  else if ((c =? 0x130) || (c =? 0x131))%N then 105%N
  else if (c =? 0x17F)%N then 115%N
  else if (c =? 0x212A)%N then 107%N
  else c.

(** A literal of lowercase letters and spaces matches at the start of
    the text. *)
Fixpoint starts_with (pat txt : text) : bool :=
  match pat, txt with
  | [], _ => true
  | _ :: _, [] => false
  | p :: pat', c :: txt' => (p =? ignorecase c)%N && starts_with pat' txt'
  end.

(** The literal matches somewhere in the text. *)
Fixpoint occurs (pat txt : text) : bool :=
  starts_with pat txt ||
  match txt with
  | [] => false
  | _ :: txt' => occurs pat txt'
  end.

(** A compiled pattern of [LogPatterns]: an alternation of literals,
    compiled with [re.IGNORECASE]; [search] finds a match of some
    alternative anywhere in the content. *)
Definition Pattern := list string.

Definition search (p : Pattern) (content : text) : bool :=
  existsb (λ alt, occurs (codepoints alt) content) p.

Module LogPatterns.

Definition RUNNING : Pattern :=
  [ "running"; "executing"; "pytest"; "npm test"; "pnpm test"; "yarn test";
    "build"; "compile"; "install" ]%string.

Definition ERROR : Pattern :=
  [ "error"; "failed"; "exception"; "traceback"; "fatal" ]%string.

Definition SUCCESS : Pattern :=
  [ "success"; "passed"; "done"; "completed"; "finished" ]%string.

End LogPatterns.

(** [LogTailer._analyze], as the change it makes to the resolver the
    tailer refers to; [t] and [t'] are the clock readings of the mutator
    it calls ([on_log_activity] reads the clock once). *)
Definition _analyze (content : text) (t t' : Time.t) (r : StateResolver)
  : StateResolver :=
  if search LogPatterns.ERROR content then on_error t t' r
  else if search LogPatterns.SUCCESS content then on_success t t' r
  else if search LogPatterns.RUNNING content then on_running t t' r
  else on_log_activity t r.

(** *** The tailer *)

(** [class LogTailer]: the read cursor and the resolver it reports to.
    The resolver is the application's one resolver, shared with the file
    system signal; the model threads it through. *)
Record LogTailer := mkTailer {
  state_resolver : StateResolver;
  position : nat
}.

(** What the file system answers about [log_path] during one call:
    whether the path exists (or the error [Path.exists()] raises, as it
    does for an [OSError] other than a missing path), the size [stat]
    reports (or the error it raises), and the bytes [open] and [read]
    deliver (or the error one of them raises). The three need not agree:
    the file can change between the calls. *)
Record LogFile := mkLogFile {
  path_exists : Outcome bool;
  stat_st_size : Outcome nat;
  open_read : Outcome (list byte)
}.

(** Code that runs on a tailer: it may update the tailer and then return
    or raise; an update made before the raise stays. *)
Definition Tail (A : Type) : Type := LogTailer → Outcome A * LogTailer.

Global Instance Tail_ret : MRet Tail := λ A a self, (Returned a, self).

Global Instance Tail_bind : MBind Tail := λ A B k m self,
  match m self with
  | (Returned a, self') => k a self'
  | (Raised msg, self') => (Raised msg, self')
  end.

Definition call {A} (o : Outcome A) : Tail A := λ self, (o, self).

Definition get_position : Tail nat := λ self, (Returned (position self), self).

Definition set_position (p : nat) : Tail unit :=
  λ self, (Returned tt, mkTailer (state_resolver self) p).

Definition update_resolver (f : StateResolver → StateResolver) : Tail unit :=
  λ self, (Returned tt, mkTailer (f (state_resolver self)) (position self)).

(** [try: body except Exception: handler]. *)
Definition try_except {A} (body handler : Tail A) : Tail A := λ self,
  match body self with
  | (Returned a, self') => (Returned a, self')
  | (Raised _, self') => handler self'
  end.

(** [LogTailer.__init__]: the cursor starts at the end of an existing
    file. Nothing here is inside a [try]. *)
Definition LogTailer_init (f : LogFile) (r : StateResolver)
  : Outcome LogTailer :=
  match path_exists f with
  | Raised msg => Raised msg
  | Returned true =>
      match stat_st_size f with
      | Returned size => Returned (mkTailer r size)
      | Raised msg => Raised msg
      end
  | Returned false => Returned (mkTailer r 0%nat)
  end.

(** [LogTailer.check]. The existence test comes before the [try]: an
    error it raises is not handled here. *)
Definition check (f : LogFile) (t t' : Time.t) : Tail unit :=
  found ← call (path_exists f);
  if negb found then mret tt
  else
    try_except
      (current_size ← call (stat_st_size f);
       pos ← get_position;
       (if (current_size <? pos)%nat then set_position 0%nat else mret tt);;
       pos ← get_position;
       if (pos <? current_size)%nat then
         data ← call (open_read f);
         let new_content := read_from data pos in
         set_position (tell_after_read data pos);;
         update_resolver (_analyze new_content t t')
       else mret tt)
      (mret tt).

(** ** Overlay *)

(** The members of [State] in definition order, as [for s in State]
    visits them. *)
Definition all_states : list State :=
  [IDLE; THINKING; TYPING; RUNNING; SUCCESS; ERROR].

(** [state.name.lower()]. *)
Definition State_name_lower (s : State) : string :=
  match s with
  | IDLE => "idle" | THINKING => "thinking" | TYPING => "typing"
  | RUNNING => "running" | SUCCESS => "success" | ERROR => "error"
  end.

(** The asset file of a state: [f"{state.name.lower()}.gif"]. *)
Definition gif_name (s : State) : string := State_name_lower s +:+ ".gif".

(** A [QMovie], told by the character pack and the state whose file it
    plays. *)
Record Movie := mkMovie {
  movie_character : string;
  movie_state : State
}.

(** The calls the overlay makes on its label and its movies. *)
Inductive QtCall : Set :=
  | MovieStop (m : Movie)
  | MovieStart (m : Movie)
  | LabelSetMovie (m : Movie).

(** An entry of the assets directory: its name, the answer of
    [path.is_dir()] and, for a file name, the answer of
    [(path / name).exists()]. Either call can raise (as it does for an
    [OSError] other than a missing path). *)
Record DirEntry := mkEntry {
  entry_name : string;
  entry_is_dir : Outcome bool;
  entry_exists : string → Outcome bool
}.

(** What the file system answers about [assets_dir]: it does not exist,
    the existence test or the listing raises, or it lists these entries
    (in any order). *)
Inductive AssetsDir :=
  | AssetsMissing
  | AssetsUnreadable (msg : string)
  | AssetsListing (entries : list DirEntry).

(** The order of [sorted] on the paths of one directory: by name. *)
Definition entry_le (e1 e2 : DirEntry) : Prop :=
  String.le (entry_name e1) (entry_name e2).

Global Instance entry_le_dec : RelDecision entry_le.
Proof. intros e1 e2. unfold entry_le. apply _. Defined.

(** [any((path / f"{s.name.lower()}.gif").exists() for s in states)]:
    the files are tried in order up to the first that exists; a call that
    raises ends the scan. *)
Fixpoint any_gif_exists (e : DirEntry) (states : list State) : Outcome bool :=
  match states with
  | [] => Returned false
  | s :: rest =>
      match entry_exists e (gif_name s) with
      | Raised msg => Raised msg
      | Returned true => Returned true
      | Returned false => any_gif_exists e rest
      end
  end.

Definition has_assets (e : DirEntry) : Outcome bool :=
  any_gif_exists e all_states.

(** The entries that count as packs. *)
Definition is_pack (e : DirEntry) : Prop :=
  entry_is_dir e = Returned true ∧ has_assets e = Returned true.

Global Instance is_pack_dec e : Decision (is_pack e).
Proof. unfold is_pack. apply _. Defined.

(** The loop of [_discover_characters] over the sorted entries: the
    names appended to [self.characters], or the first error raised. *)
Fixpoint discover_from (entries : list DirEntry) : Outcome (list string) :=
  match entries with
  | [] => Returned []
  | e :: rest =>
      match entry_is_dir e with
      | Raised msg => Raised msg
      | Returned false => discover_from rest
      | Returned true =>
          match has_assets e with
          | Raised msg => Raised msg
          | Returned found =>
              match discover_from rest with
              | Raised msg => Raised msg
              | Returned names =>
                  Returned (if found then entry_name e :: names else names)
              end
          end
      end
  end.

(** [AvatarOverlay._discover_characters]: the value assigned to
    [self.characters]. The warnings printed are not modelled. *)
Definition _discover_characters (assets : AssetsDir) : Outcome (list string) :=
  match assets with
  | AssetsMissing => Returned []
  | AssetsUnreadable msg => Raised msg
  | AssetsListing entries => discover_from (merge_sort entry_le entries)
  end.

(** [class AvatarOverlay], once constructed: the attributes the state and
    character logic uses, and the calls made so far on the label and the
    movies (oldest first). [movies] is the dict in insertion order. *)
Record AvatarOverlay := mkOverlay {
  current_state : option State;
  current_character : option string;
  movies : list (State * Movie);
  characters : list string;
  qt_calls : list QtCall
}.

(** [self.movies[state]], or nothing when [state not in self.movies]. *)
Definition movies_get (state : State) (ms : list (State * Movie))
  : option Movie :=
  snd <$> find (λ sm, bool_decide (sm.1 = state)) ms.

(** [AvatarOverlay.set_state]. *)
Definition set_state (state : State) (ov : AvatarOverlay) : AvatarOverlay :=
  if bool_decide (current_state ov = Some state) then ov
  else
    match movies_get state (movies ov) with
    | Some movie =>
        mkOverlay (Some state) (current_character ov) (movies ov)
                  (characters ov)
                  (qt_calls ov ++ [LabelSetMovie movie; MovieStart movie])
    | None =>
        mkOverlay (Some state) (current_character ov) (movies ov)
                  (characters ov) (qt_calls ov)
    end.

(** [AvatarOverlay._load_character]; [gif_exists s] is the answer of
    [gif_path.exists()] for the file of state [s] in the directory of the
    character. The label exists from the end of [__init__] on, and the
    one call made before that finds [current_state] unset, so the test
    [self.current_state and hasattr(self, 'label')] is the test on
    [current_state] (every member of [State] is truthy). *)
Definition _load_character (gif_exists : State → bool)
    (character_name : string) (ov : AvatarOverlay) : AvatarOverlay :=
  if bool_decide (character_name ∈ characters ov) then
    let stopped := qt_calls ov ++ map (λ sm, MovieStop sm.2) (movies ov) in
    let loaded :=
      map (λ s, (s, mkMovie character_name s))
          (filter (λ s, gif_exists s = true) all_states) in
    match current_state ov with
    | Some old_state =>
        set_state old_state
          (mkOverlay None (Some character_name) loaded (characters ov) stopped)
    | None =>
        mkOverlay None (Some character_name) loaded (characters ov) stopped
    end
  else ov.


(** [AvatarOverlay.__init__(assets_dir, default_character)], without the
    window set-up; [gif_exists c s] answers for the file of state [s] of
    character [c]. *)
Definition AvatarOverlay_init (assets : AssetsDir)
    (gif_exists : string → State → bool) (default_character : option string)
  : Outcome AvatarOverlay :=
  match _discover_characters assets with
  | Raised msg => Raised msg
  | Returned chars =>
      let ov := mkOverlay None None [] chars [] in
      Returned
        match default_character with
        | Some (String c d as name) =>
            if bool_decide (name ∈ chars)
            then _load_character (gif_exists name) name ov
            else match chars with
                 | first :: _ => _load_character (gif_exists first) first ov
                 | [] => ov
                 end
        | _ =>
            match chars with
            | first :: _ => _load_character (gif_exists first) first ov
            | [] => ov
            end
        end
  end.

(** ** Application controller *)

(** [class AvatarApp] once started: the one resolver, the watcher, the
    cursor of the log tailer when there is one (the tailer reports to the
    same resolver), and the overlay. *)
Record AvatarApp := mkApp {
  app_resolver : StateResolver;
  app_project_watcher : ProjectWatcher;
  app_log_position : option nat;
  app_overlay : AvatarOverlay
}.

(** [AvatarApp.__init__] and [AvatarApp.start]: the overlay is built and
    set to IDLE, the observer is started ([observer_start] is what that
    call does), then the tailer is created if a log path was given (an
    empty path is none). *)
Definition AvatarApp_start
    (excl : option (gset string)) (log_path : option string)
    (assets : AssetsDir) (gif_exists : string → State → bool)
    (observer_start : Outcome unit) (log : LogFile)
  : Outcome AvatarApp :=
  match StateResolver_init None with
  | Raised msg => Raised msg
  | Returned r =>
    match AvatarOverlay_init assets gif_exists None with
    | Raised msg => Raised msg
    | Returned ov =>
      let ov := set_state IDLE ov in
      let w := ProjectWatcher_init excl in
      match observer_start with
      | Raised msg => Raised msg
      | Returned _ =>
        match log_path with
        | Some (String _ _) =>
            match LogTailer_init log r with
            | Raised msg => Raised msg
            | Returned tailer =>
                Returned (mkApp (state_resolver tailer) w
                                (Some (position tailer)) ov)
            end
        | _ => Returned (mkApp r w None ov)
        end
      end
    end
  end.

(** What the event loop delivers to a started application: a file system
    event reaching the watcher (with the clock reading of the slot
    [on_fs_activity] it may trigger), a tick of the log timer (with what
    the file system answers and the clock readings of the poll), or a
    tick of the state timer (with its clock reading). *)
Inductive AppEvent :=
  | FsEvent (event : FileSystemEvent) (t : Time.t)
  | LogTick (log : LogFile) (t t' : Time.t)
  | StateTick (now : Time.t).

(** The handler of each event: [ProjectWatcher.on_any_event] with the
    signal wired to [on_fs_activity]; [LogTailer.check] (there is no log
    timer without a tailer); [AvatarApp._update_state]. *)
Definition app_step (app : AvatarApp) (ev : AppEvent) : AvatarApp :=
  match ev with
  | FsEvent event t =>
      if on_any_event (app_project_watcher app) event
      then mkApp (on_fs_activity t (app_resolver app))
                 (app_project_watcher app) (app_log_position app)
                 (app_overlay app)
      else app
  | LogTick log t t' =>
      match app_log_position app with
      | Some pos =>
          let tailer := (check log t t' (mkTailer (app_resolver app) pos)).2 in
          mkApp (state_resolver tailer) (app_project_watcher app)
                (Some (position tailer)) (app_overlay app)
      | None => app
      end
  | StateTick now =>
      mkApp (app_resolver app) (app_project_watcher app)
            (app_log_position app)
            (set_state (resolve (app_resolver app) now) (app_overlay app))
  end.

(** A run of the event loop. *)
Definition app_run (app : AvatarApp) (evs : list AppEvent) : AvatarApp :=
  foldl app_step app evs.

(** ** The design document's vocabulary *)

(** The decay condition of each state, as the transition table of the
    design document words it ("active while"); [IDLE] is the fallback
    and has no condition. *)
Definition decay_condition (r : StateResolver) (now : Time.t) (s : State)
  : bool :=
  let cfg := config r in
  let ts := timestamps r in
  match s with
  | ERROR => Time.ltb (now - last_error ts) (error_duration cfg)
  | SUCCESS => Time.ltb (now - last_success ts) (success_duration cfg)
  | RUNNING => Time.ltb (now - last_running ts) (running_duration cfg)
  | TYPING => Time.ltb (now - last_fs_activity ts) (typing_threshold cfg)
  | THINKING =>
      Time.ltb (now - Time.max (last_fs_activity ts) (last_log_activity ts))
               (thinking_threshold cfg)
  | IDLE => true
  end.

(** The four trigger events that have a state and a decay duration. *)
Inductive Trigger : Set :=
  | OnError | OnSuccess | OnRunning | OnFsActivity.

(** The mutator a trigger stands for, called at clock reading [T] (and
    [t'] for the nested [on_log_activity], where there is one). *)
Definition fire (e : Trigger) (T t' : Time.t) (r : StateResolver)
  : StateResolver :=
  match e with
  | OnError => on_error T t' r
  | OnSuccess => on_success T t' r
  | OnRunning => on_running T t' r
  | OnFsActivity => on_fs_activity T r
  end.

Definition trigger_state (e : Trigger) : State :=
  match e with
  | OnError => ERROR
  | OnSuccess => SUCCESS
  | OnRunning => RUNNING
  | OnFsActivity => TYPING
  end.

Definition trigger_duration (cfg : StateConfig) (e : Trigger) : Time.t :=
  match e with
  | OnError => error_duration cfg
  | OnSuccess => success_duration cfg
  | OnRunning => running_duration cfg
  | OnFsActivity => typing_threshold cfg
  end.

(** No state of higher priority than [s] has its decay condition true. *)
Definition none_higher (r : StateResolver) (now : Time.t) (s : State) : Prop :=
  ∀ s', (State_value s < State_value s')%nat → decay_condition r now s' = false.

(** A resolver as the application builds it, before any mutator runs. *)
Definition fresh_resolver (cfg : StateConfig) : StateResolver :=
  mkResolver cfg StateTimestamps_default.

(** The cursor a poll reads from once [stat] has reported [size]: 0 after
    a truncation, the stored cursor otherwise. *)
Definition cursor_after_stat (size : nat) (self : LogTailer) : nat :=
  if (size <? position self)%nat then 0%nat else position self.

(** The bytes of an ASCII string, for examples of log content. *)
Definition bytes (s : string) : list byte := list_byte_of_string s.

(** A file whose size query and content agree: the content did not
    change during the poll. *)
Definition stable_file (data : list byte) : LogFile :=
  mkLogFile (Returned true) (Returned (length data)) (Returned data).

(** Whether the character [c] occurs in [s]. *)
Definition has_char (c : ascii) (s : string) : bool :=
  existsb (Ascii.eqb c) (list_ascii_of_string s).


(** The text [check] hands to the classifier for a batch of bytes. *)
Definition decoded (batch : list byte) : text :=
  translate_newlines (utf8_decode_ignore (map Byte.to_N batch)).

(** A poll of a log that is only appended to: [batch] has been appended
    to the [data] of the file since the previous poll, the file does not
    change during the poll, and [t], [t'] are the clock readings. *)
Definition poll_appended (st : list byte * LogTailer)
    (b : list byte * Time.t * Time.t) : list byte * LogTailer :=
  (st.1 ++ b.1.1,
   (check (stable_file (st.1 ++ b.1.1)) b.1.2 b.2 st.2).2).

(** Classifying the non-empty batches alone, one chunk each, in order. *)
Definition classify_batches (r : StateResolver)
    (batches : list (list byte * Time.t * Time.t)) : StateResolver :=
  foldl (λ r b, match b.1.1 with
                | [] => r
                | _ :: _ => _analyze (decoded b.1.1) b.1.2 b.2 r
                end)
        r batches.

(** * Properties *)

(** ** Facts about clock values *)

Lemma ltb_lt a b : Time.ltb a b = true <-> a < b.
Proof.
  unfold Time.ltb. rewrite negb_true_iff. split.
  - intros H. apply Qnot_le_lt. intros Hle.
    apply Qle_bool_iff in Hle. congruence.
  - intros H. destruct (Qle_bool b a) eqn:E; [|reflexivity].
    apply Qle_bool_iff in E. lra.
Qed.

Lemma ltb_ge a b : Time.ltb a b = false <-> b <= a.
Proof.
  unfold Time.ltb. rewrite negb_false_iff. apply Qle_bool_iff.
Qed.


Lemma max_ge_r a b : b <= Time.max a b.
Proof.
  unfold Time.max. destruct (Time.ltb a b) eqn:E; [|apply ltb_ge in E]; lra.
Qed.

(** ** The resolver *)

(** [resolve] is the top-down scan of the decay conditions. *)
Lemma resolve_scan r now :
  resolve r now =
    if decay_condition r now ERROR then ERROR
    else if decay_condition r now SUCCESS then SUCCESS
    else if decay_condition r now RUNNING then RUNNING
    else if decay_condition r now TYPING then TYPING
    else if decay_condition r now THINKING then THINKING
    else IDLE.
Proof. reflexivity. Qed.

(** The state returned has its decay condition true. *)
Lemma resolve_condition r now : decay_condition r now (resolve r now) = true.
Proof.
  rewrite resolve_scan.
  repeat match goal with
         | |- context [if decay_condition r now ?s then _ else _] =>
             let E := fresh "E" in
             destruct (decay_condition r now s) eqn:E; try assumption
         end.
  reflexivity.
Qed.

(** No state whose decay condition is true has a higher priority than
    the state returned. *)
Lemma resolve_highest r now s :
  decay_condition r now s = true →
  (State_value s ≤ State_value (resolve r now))%nat.
Proof.
  intros Hs. rewrite resolve_scan.
  destruct (decay_condition r now ERROR) eqn:E5;
    [destruct s; simpl; lia|].
  destruct (decay_condition r now SUCCESS) eqn:E4;
    [destruct s; simpl; first [lia | congruence]|].
  destruct (decay_condition r now RUNNING) eqn:E3;
    [destruct s; simpl; first [lia | congruence]|].
  destruct (decay_condition r now TYPING) eqn:E2;
    [destruct s; simpl; first [lia | congruence]|].
  destruct (decay_condition r now THINKING) eqn:E1;
    destruct s; simpl; first [lia | congruence].
Qed.

(** A state whose condition is true and above which no condition is true
    is the state returned. *)
Lemma resolve_unique r now s :
  decay_condition r now s = true → none_higher r now s → resolve r now = s.
Proof.
  intros Hs Hno.
  pose proof (resolve_highest r now s Hs) as Hle.
  pose proof (resolve_condition r now) as Hc.
  destruct (decide ((State_value s < State_value (resolve r now))%nat)) as [Hlt|Hge].
  - apply Hno in Hlt. congruence.
  - destruct s, (resolve r now); simpl in *; first [reflexivity | lia].
Qed.

(** C1. For every ledger snapshot and every time [now], [resolve] returns
    the highest-priority state whose decay condition holds: the state it
    returns is exactly the one whose condition is true while the
    condition of every state of higher priority is false; hence no state
    of lower priority is returned while the condition of a higher one is
    true. The conditions are those of the table, ERROR first, IDLE as the
    fallback. *)
Theorem resolve_priority_invariant (r : StateResolver) (now : Time.t) (s : State) :
  resolve r now = s ↔
  decay_condition r now s = true ∧
  ∀ s', (State_value s < State_value s')%nat → decay_condition r now s' = false.
Proof.
  split.
  - intros <-. split; [apply resolve_condition|].
    intros s' Hlt. destruct (decay_condition r now s') eqn:E; [|reflexivity].
    apply resolve_highest in E. lia.
  - intros [Hs Hno]. by apply resolve_unique.
Qed.

(** ** Triggers and decay *)

(** A trigger leaves the configuration alone. *)
Lemma fire_config e T t' r : config (fire e T t' r) = config r.
Proof. by destruct e. Qed.

(** After a trigger at [T] the decay condition of its state is the test
    [now - T < D]. *)
Lemma fire_condition e T t' r now :
  decay_condition (fire e T t' r) now (trigger_state e)
  = Time.ltb (now - T) (trigger_duration (config r) e).
Proof. by destruct e. Qed.

(** C2 (counterexample). [on_error] at 1000 and [on_success] at 1001,
    default durations: 1002 lies in the success window [1001, 1005), yet
    [resolve] yields ERROR there, not SUCCESS. *)
Lemma decay_success_masked_by_error :
  let r := on_success 1001 1001
             (on_error 1000 1000 (fresh_resolver StateConfig_default)) in
  1001 <= 1002 ∧ 1002 < 1001 + trigger_duration (config r) OnSuccess ∧
  resolve r 1002 = ERROR ∧ resolve r 1002 ≠ trigger_state OnSuccess.
Proof. vm_compute. repeat split; congruence. Qed.

(** C2 (amended). For a trigger at time [T] whose state has decay
    duration [D]: at every [now] in [[T, T+D)] at which no state of
    higher priority has its decay condition true, [resolve] yields the
    state of the trigger (for [on_error] there is no such state, so ERROR
    is yielded throughout the window); and at no [now >= T+D] does
    [resolve] yield that state. *)
Theorem decay_invariant (e : Trigger) (r : StateResolver) (T t' now : Time.t) :
  let r' := fire e T t' r in
  let D := trigger_duration (config r) e in
  (T <= now → now < T + D → none_higher r' now (trigger_state e) →
   resolve r' now = trigger_state e) ∧
  (e = OnError → T <= now → now < T + D → resolve r' now = ERROR) ∧
  (T + D <= now → resolve r' now ≠ trigger_state e).
Proof.
  intros r' D. split; [|split].
  - intros _ Hlt Hno. apply resolve_unique; [|exact Hno].
    subst r' D. rewrite fire_condition. apply ltb_lt. lra.
  - intros -> _ Hlt. apply resolve_unique.
    + subst r'. rewrite (fire_condition OnError). apply ltb_lt.
      subst D. simpl in *. lra.
    + intros s' Hs'. destruct s'; simpl in Hs'; lia.
  - intros Hge Heq.
    pose proof (resolve_condition r' now) as Hc. rewrite Heq in Hc.
    subst r' D. rewrite fire_condition in Hc. apply ltb_lt in Hc. lra.
Qed.

(** The decay invariant at work: [on_success] at 1001 on a ledger whose
    last error is long past gives SUCCESS at 1002 and no longer at 1005. *)
Lemma decay_invariant_witness :
  let r := on_error 900 900 (fresh_resolver StateConfig_default) in
  resolve (on_success 1001 1001 r) 1002 = SUCCESS ∧
  resolve (on_success 1001 1001 r) 1005 ≠ SUCCESS.
Proof.
  intros r.
  destruct (decay_invariant OnSuccess r 1001 1001 1002) as [Hin _].
  destruct (decay_invariant OnSuccess r 1001 1001 1005) as [_ [_ Hout]].
  split.
  - apply Hin; [vm_compute; congruence | reflexivity |].
    intros s' Hs'. destruct s'; simpl in Hs'; first [lia | reflexivity].
  - apply Hout. vm_compute. congruence.
Defined.

(** ** Mutators *)

(** A log-activity stamp younger than [thinking_threshold] makes the
    THINKING condition true and keeps [resolve] away from IDLE. *)
Lemma log_stamp_thinking r now :
  now - last_log_activity (timestamps r) < thinking_threshold (config r) →
  decay_condition r now THINKING = true ∧ resolve r now ≠ IDLE.
Proof.
  intros Hlt.
  assert (Hth : decay_condition r now THINKING = true).
  { unfold decay_condition. apply ltb_lt.
    pose proof (max_ge_r (last_fs_activity (timestamps r))
                         (last_log_activity (timestamps r))) as Hm.
    lra. }
  split; [exact Hth|].
  intros Hidle. apply resolve_highest in Hth.
  rewrite Hidle in Hth. simpl in Hth. lia.
Qed.

(** C5. Each of [on_running], [on_success] and [on_error] stamps its own
    field with the clock reading of the call and stamps the generic
    log-activity field with the reading taken by the nested
    [on_log_activity] of the same call (the same value when the clock
    has not moved in between); the file-system field, the two other
    classified fields and the configuration are unchanged. So after any
    of them the THINKING condition holds at every [now] less than
    [thinking_threshold] past the call, and [resolve] is not IDLE there. *)
Theorem classified_mutators_frame (t t' : Time.t) (r : StateResolver) :
  let ts := timestamps r in
  (timestamps (on_running t t' r)
   = mkTimestamps (last_fs_activity ts) t' t (last_success ts) (last_error ts)) ∧
  (timestamps (on_success t t' r)
   = mkTimestamps (last_fs_activity ts) t' (last_running ts) t (last_error ts)) ∧
  (timestamps (on_error t t' r)
   = mkTimestamps (last_fs_activity ts) t' (last_running ts) (last_success ts) t) ∧
  (∀ f, f ∈ [on_running t t'; on_success t t'; on_error t t'] →
     config (f r) = config r ∧
     ∀ now, now - t' < thinking_threshold (config r) →
       decay_condition (f r) now THINKING = true ∧ resolve (f r) now ≠ IDLE).
Proof.
  intros ts. split; [reflexivity|]. split; [reflexivity|].
  split; [reflexivity|].
  intros f Hf. rewrite !elem_of_cons, elem_of_nil in Hf.
  destruct Hf as [-> | [-> | [-> | []]]];
    (split; [reflexivity | intros now Hlt; by apply log_stamp_thinking]).
Qed.

(** The frame at work: a classified event at 1000 keeps the avatar out of
    IDLE at 1007, inside the eight-second THINKING window. *)
Lemma classified_mutators_frame_witness :
  resolve (on_error 1000 1000 (fresh_resolver StateConfig_default)) 1007 ≠ IDLE.
Proof.
  destruct (classified_mutators_frame 1000 1000
              (fresh_resolver StateConfig_default)) as (_ & _ & _ & H).
  destruct (H (on_error 1000 1000)) as (_ & Hw).
  - rewrite !elem_of_cons. auto.
  - apply Hw. vm_compute. reflexivity.
Defined.

(** ** Classification *)

(** [starts_with]: the text begins with letters that fold to the
    literal. *)
Lemma starts_with_spec (pat txt : text) :
  starts_with pat txt = true ↔
  ∃ mid post, txt = mid ++ post ∧ map ignorecase mid = pat.
Proof.
  revert txt. induction pat as [|p pat IH]; intros txt.
  - split; [|reflexivity]. intros _. by exists [], txt.
  - destruct txt as [|c txt]; simpl.
    + split; [discriminate|].
      intros (mid & post & Heq & Hmap). symmetry in Heq.
      apply app_eq_nil in Heq as [-> _]. discriminate.
    + rewrite andb_true_iff, N.eqb_eq, IH. split.
      * intros [-> (mid & post & -> & <-)]. by exists (c :: mid), post.
      * intros (mid & post & Heq & Hmap).
        destruct mid as [|c' mid]; [discriminate|].
        simpl in Heq, Hmap. injection Heq as <- ->.
        injection Hmap as <- <-. split; [reflexivity|]. by exists mid, post.
Qed.

(** [occurs]: some stretch of the text folds to the literal. *)
Lemma occurs_spec (pat txt : text) :
  occurs pat txt = true ↔
  ∃ pre mid post, txt = pre ++ mid ++ post ∧ map ignorecase mid = pat.
Proof.
  induction txt as [|c txt IH].
  - simpl. rewrite orb_false_r, starts_with_spec. split.
    + intros (mid & post & Heq & Hmap). by exists [], mid, post.
    + intros (pre & mid & post & Heq & Hmap). symmetry in Heq.
      apply app_eq_nil in Heq as [-> Heq]. by exists mid, post.
  - simpl. rewrite orb_true_iff, starts_with_spec, IH. split.
    + intros [(mid & post & Heq & Hmap) | (pre & mid & post & Heq & Hmap)].
      * by exists [], mid, post.
      * exists (c :: pre), mid, post. by rewrite Heq.
    + intros (pre & mid & post & Heq & Hmap). destruct pre as [|c' pre].
      * left. by exists mid, post.
      * right. simpl in Heq. injection Heq as <- ->. by exists pre, mid, post.
Qed.

(** [search]: some alternative of the pattern occurs in the content,
    letter case aside. *)
Lemma search_spec (p : Pattern) (content : text) :
  search p content = true ↔
  ∃ alt pre mid post,
    alt ∈ p ∧ content = pre ++ mid ++ post ∧
    map ignorecase mid = codepoints alt.
Proof.
  unfold search. rewrite existsb_exists. split.
  - intros (alt & Hin & Hocc). apply occurs_spec in Hocc
      as (pre & mid & post & Heq & Hmap).
    exists alt, pre, mid, post. by rewrite list_elem_of_In.
  - intros (alt & pre & mid & post & Hin & Heq & Hmap).
    exists alt. rewrite <- list_elem_of_In. split; [done|].
    apply occurs_spec. by exists pre, mid, post.
Qed.

(** C3. Classification of a chunk is ordered and exclusive. If the ERROR
    pattern matches, the effect is exactly that of [on_error], whatever
    the other patterns say; else if SUCCESS matches, exactly that of
    [on_success]; else if RUNNING matches, exactly that of [on_running];
    else that of the generic [on_log_activity]. In particular a chunk
    matching both ERROR and SUCCESS sets the ERROR timestamp and leaves
    the SUCCESS timestamp (and the RUNNING one) as it was. *)
Theorem analyze_ordered_exclusive
  (content : text) (t t' : Time.t) (r : StateResolver) :
  (search LogPatterns.ERROR content = true →
     _analyze content t t' r = on_error t t' r) ∧
  (search LogPatterns.ERROR content = false →
   search LogPatterns.SUCCESS content = true →
     _analyze content t t' r = on_success t t' r) ∧
  (search LogPatterns.ERROR content = false →
   search LogPatterns.SUCCESS content = false →
   search LogPatterns.RUNNING content = true →
     _analyze content t t' r = on_running t t' r) ∧
  (search LogPatterns.ERROR content = false →
   search LogPatterns.SUCCESS content = false →
   search LogPatterns.RUNNING content = false →
     _analyze content t t' r = on_log_activity t r) ∧
  (search LogPatterns.ERROR content = true →
   search LogPatterns.SUCCESS content = true →
     let ts := timestamps r in
     let ts' := timestamps (_analyze content t t' r) in
     last_error ts' = t ∧
     last_success ts' = last_success ts ∧
     last_running ts' = last_running ts ∧
     last_fs_activity ts' = last_fs_activity ts).
Proof.
  unfold _analyze. repeat split; intros;
    repeat match goal with H : search _ _ = _ |- _ => rewrite H; clear H end;
    reflexivity.
Qed.

(** The classification at work: a chunk with both ["FAILED"] and
    ["passed"] in it moves the ERROR timestamp only. *)
Lemma analyze_ordered_exclusive_witness :
  let chunk := read_from (bytes "2 passed, 1 FAILED") 0 in
  let r := fresh_resolver StateConfig_default in
  search LogPatterns.ERROR chunk = true ∧
  search LogPatterns.SUCCESS chunk = true ∧
  last_error (timestamps (_analyze chunk 1000 1000 r)) = 1000 ∧
  last_success (timestamps (_analyze chunk 1000 1000 r)) = 0.
Proof.
  intros chunk r.
  assert (He : search LogPatterns.ERROR chunk = true) by (vm_compute; reflexivity).
  assert (Hs : search LogPatterns.SUCCESS chunk = true) by (vm_compute; reflexivity).
  destruct (analyze_ordered_exclusive chunk 1000 1000 r) as (_ & _ & _ & _ & H).
  destruct (H He Hs) as (H1 & H2 & _ & _).
  repeat split; assumption.
Defined.

(** ** The log tailer *)

(** A missing file: nothing happens. *)
Lemma check_missing f t t' self :
  path_exists f = Returned false → check f t t' self = (Returned tt, self).
Proof.
  intros H. unfold check, mbind, Tail_bind, call. by rewrite H.
Qed.

(** The existence test raises: [check] raises too, having changed
    nothing. *)
Lemma check_exists_raised f t t' self msg :
  path_exists f = Raised msg → check f t t' self = (Raised msg, self).
Proof.
  intros H. unfold check, mbind, Tail_bind, call. by rewrite H.
Qed.

(** [stat] raises: the handler swallows it before anything was changed. *)
Lemma check_stat_raised f t t' self msg :
  path_exists f = Returned true → stat_st_size f = Raised msg →
  check f t t' self = (Returned tt, self).
Proof.
  intros He Hs. unfold check, mbind, Tail_bind, call. rewrite He. simpl.
  unfold try_except, mbind, Tail_bind, call. by rewrite Hs.
Qed.

(** [stat] reports [size]: what [check] does, case by case. *)
Lemma check_stat_returned f t t' self size :
  path_exists f = Returned true → stat_st_size f = Returned size →
  let pos := cursor_after_stat size self in
  check f t t' self =
    if (pos <? size)%nat then
      match open_read f with
      | Returned data =>
          (Returned tt,
           mkTailer (_analyze (read_from data pos) t t' (state_resolver self))
                    (tell_after_read data pos))
      | Raised _ => (Returned tt, mkTailer (state_resolver self) pos)
      end
    else (Returned tt, mkTailer (state_resolver self) pos).
Proof.
  intros He Hs pos. subst pos. unfold check, cursor_after_stat.
  unfold try_except, mbind, Tail_bind, call, get_position, set_position,
    update_resolver, mret, Tail_ret.
  rewrite He. simpl.
  rewrite Hs. destruct self as [r p]. simpl.
  destruct (size <? p)%nat eqn:Elt; simpl.
  - destruct (0 <? size)%nat; [destruct (open_read f)|]; reflexivity.
  - destruct (p <? size)%nat; [destruct (open_read f)|]; reflexivity.
Qed.

(** Bytes below 0x80 decode to themselves. *)
Lemma utf8_decode_ascii (bs : list N) :
  Forall (λ b, (b < 0x80)%N) bs → utf8_decode_ignore bs = bs.
Proof.
  induction 1 as [|b bs Hb _ IH]; [reflexivity|].
  simpl. apply N.ltb_lt in Hb. by rewrite Hb, IH.
Qed.

(** Reading from offset 0 ends at the length of the data. *)
Lemma tell_after_read_0 data : tell_after_read data 0 = length data.
Proof. reflexivity. Qed.

(** C4. If on a call of [check] the size reported for the file is smaller
    than the stored cursor (and the read succeeds), the cursor is reset
    to 0, so that the whole content of the file, from offset 0 to its
    end, is read and classified as one chunk, and the cursor ends at the
    size of the file as read; an empty file has nothing to read or
    classify and leaves the cursor at 0. With the file unchanged between
    the size query and the read, the cursor ends at the reported size. *)
Theorem check_rotation
  (f : LogFile) (t t' : Time.t) (self : LogTailer)
  (size : nat) (data : list byte) :
  path_exists f = Returned true →
  stat_st_size f = Returned size →
  open_read f = Returned data →
  (size < position self)%nat →
  let self' := (check f t t' self).2 in
  (check f t t' self).1 = Returned tt ∧
  ((0 < size)%nat →
     position self' = length data ∧
     state_resolver self'
     = _analyze (translate_newlines (utf8_decode_ignore (map Byte.to_N data)))
                t t' (state_resolver self)) ∧
  (size = 0%nat →
     position self' = 0%nat ∧ state_resolver self' = state_resolver self) ∧
  (length data = size → position self' = size).
Proof.
  intros He Hs Hr Hlt self'. subst self'.
  rewrite (check_stat_returned f t t' self size He Hs). simpl.
  assert (Hc : cursor_after_stat size self = 0%nat).
  { unfold cursor_after_stat.
    destruct (Nat.ltb_spec size (position self)); [reflexivity | lia]. }
  rewrite Hc, Hr.
  destruct (Nat.ltb_spec 0 size) as [Hpos|Hzero]; simpl.
  - repeat split; intros; try reflexivity; try lia.
    rewrite tell_after_read_0. assumption.
  - repeat split; intros; try reflexivity; try lia.
Qed.

(** The scenario of the design document: cursor 500, the file truncated
    and regrown to 80 bytes before the poll; all 80 bytes are classified
    and the cursor ends at 80. *)
Lemma check_rotation_witness :
  let data := bytes "build ok" ++ repeat "x"%byte 72 in
  let f := mkLogFile (Returned true) (Returned 80%nat) (Returned data) in
  let self := mkTailer (fresh_resolver StateConfig_default) 500 in
  length data = 80%nat ∧
  position (check f 1000 1000 self).2 = 80%nat ∧
  state_resolver (check f 1000 1000 self).2
  = on_running 1000 1000 (fresh_resolver StateConfig_default).
Proof.
  intros data f self.
  destruct (check_rotation f 1000 1000 self 80 data) as (_ & Hread & _ & Hsize);
    [reflexivity | reflexivity | reflexivity | simpl; lia |].
  split; [reflexivity|]. split; [apply Hsize; reflexivity|].
  destruct Hread as [_ ->]; [lia|]. vm_compute. reflexivity.
Defined.

(** A file that grew from 100 to 150 bytes, the new text holding
    ["Test PASSED successfully"]: the 50 new bytes alone are classified,
    SUCCESS is triggered, the generic log-activity stamp moves with it and
    the cursor ends at 150. *)
Example check_growth_success :
  let old := repeat "e"%byte 100 in
  let new := bytes "Test PASSED successfully" ++ repeat " "%byte 26 in
  let f := mkLogFile (Returned true) (Returned 150%nat) (Returned (old ++ new)) in
  let r := fresh_resolver StateConfig_default in
  check f 1000 1001 (mkTailer r 100)
  = (Returned tt, mkTailer (on_success 1000 1001 r) 150) ∧
  timestamps (on_success 1000 1001 r) = mkTimestamps 0 1001 0 1000 0.
Proof. vm_compute. split; reflexivity. Qed.

(** The cursor starts at the end of a file that exists at startup, so
    nothing written before startup is ever classified. *)
Lemma LogTailer_init_cursor f r size :
  path_exists f = Returned true → stat_st_size f = Returned size →
  LogTailer_init f r = Returned (mkTailer r size).
Proof. intros He Hs. unfold LogTailer_init. by rewrite He, Hs. Qed.

(** C6 (counterexample). Cursor 500; [stat] reports 80 bytes, then [open]
    raises. The error is swallowed, but the cursor is 0 afterwards, not
    500. *)
Lemma check_failure_moves_cursor :
  let f := mkLogFile (Returned true) (Returned 80%nat) (Raised "PermissionError") in
  let self := mkTailer (fresh_resolver StateConfig_default) 500 in
  (check f 1000 1000 self).1 = Returned tt ∧
  position (check f 1000 1000 self).2 = 0%nat ∧
  position (check f 1000 1000 self).2 ≠ position self.
Proof. vm_compute. repeat split; congruence. Qed.

(** C6 (amended). Provided the existence test of the path answers,
    [check] never propagates an error. If the file does not exist it is
    a no-op. An I/O failure during the poll is swallowed with the ledger
    untouched; the cursor is unchanged when [stat] fails, and when a
    later step fails it is the cursor the read was to start from:
    unchanged, or 0 if [stat] had reported a size below it. Whatever
    bytes are read, well-formed UTF-8 or not, the call returns. *)
Theorem check_swallows_errors
  (f : LogFile) (t t' : Time.t) (self : LogTailer) (found : bool) :
  path_exists f = Returned found →
  let self' := (check f t t' self).2 in
  (check f t t' self).1 = Returned tt ∧
  (found = false → self' = self) ∧
  (found = true →
     ∀ msg, stat_st_size f = Raised msg → self' = self) ∧
  (found = true →
     ∀ size msg, stat_st_size f = Returned size → open_read f = Raised msg →
       state_resolver self' = state_resolver self ∧
       position self' = cursor_after_stat size self ∧
       ((position self ≤ size)%nat → self' = self)).
Proof.
  intros He self'. subst self'. destruct found.
  - destruct (stat_st_size f) as [size|msg] eqn:Hs.
    + rewrite (check_stat_returned f t t' self size He Hs). simpl.
      split.
      { destruct (_ <? _)%nat; [destruct (open_read f)|]; reflexivity. }
      split; [discriminate|]. split; [intros _ msg; discriminate|].
      intros _ size' msg Hsz Hr. injection Hsz as <-. rewrite Hr.
      assert (Hsame : ∀ b : bool,
                (if b then (Returned tt, mkTailer (state_resolver self)
                                           (cursor_after_stat size self))
                 else (Returned tt, mkTailer (state_resolver self)
                                      (cursor_after_stat size self)))
                = (Returned tt, mkTailer (state_resolver self)
                                  (cursor_after_stat size self)))
        by (by intros []).
      rewrite Hsame. simpl. repeat split.
      intros Hle. unfold cursor_after_stat.
      destruct (Nat.ltb_spec size (position self)); [lia|].
      by destruct self.
    + rewrite (check_stat_raised f t t' self msg He Hs). simpl.
      split; [reflexivity|]. split; [discriminate|].
      split; [reflexivity|]. intros _ size msg'. discriminate.
  - rewrite (check_missing f t t' self He). simpl.
    split; [reflexivity|]. split; [reflexivity|].
    split; discriminate.
Qed.

(** Swallowed failures at work: an [open] that raises while the file has
    grown leaves the tailer as it was, and bytes that are not UTF-8 are
    dropped, not fatal: ["err\xffor"] still reads as an error line. *)
Lemma check_swallows_errors_witness :
  let r := fresh_resolver StateConfig_default in
  let f := mkLogFile (Returned true) (Returned 120%nat) (Raised "PermissionError") in
  let g := mkLogFile (Returned true) (Returned 7%nat)
             (Returned (bytes "err" ++ [Byte.xff] ++ bytes "or" ++ [Byte.x0a])) in
  (check f 1000 1000 (mkTailer r 100)).2 = mkTailer r 100 ∧
  (check g 1000 1000 (mkTailer r 0)).1 = Returned tt ∧
  (check g 1000 1000 (mkTailer r 0)).2 = mkTailer (on_error 1000 1000 r) 7.
Proof.
  intros r f g. split; [|split].
  - destruct (check_swallows_errors f 1000 1000 (mkTailer r 100) true eq_refl)
      as (_ & _ & _ & H).
    destruct (H eq_refl 120%nat "PermissionError"%string eq_refl eq_refl)
      as (_ & _ & Hsame).
    apply Hsame. simpl. lia.
  - apply (check_swallows_errors g 1000 1000 (mkTailer r 0) true eq_refl).
  - vm_compute. reflexivity.
Defined.

(** ** The file system filter *)

(** A caller's non-empty set is the whole exclusion set of the watcher. *)
Lemma init_excludes_nonempty (X : gset string) :
  X ≠ ∅ → excludes (ProjectWatcher_init (Some X)) = X.
Proof. intros HX. unfold ProjectWatcher_init. simpl. by rewrite decide_False. Qed.

(** Without a caller's set the defaults apply. *)
Lemma init_excludes_default : excludes (ProjectWatcher_init None) = DEFAULT_EXCLUDES.
Proof. reflexivity. Qed.

(** [_should_ignore] says whether some component is an excluded name. *)
Lemma should_ignore_spec w path :
  _should_ignore w path = true ↔
  ∃ part, part ∈ Path_parts path ∧ part ∈ excludes w.
Proof.
  unfold _should_ignore. rewrite existsb_exists. split.
  - intros (part & Hin & Hex). exists part. split.
    + by apply list_elem_of_In.
    + by apply bool_decide_eq_true in Hex.
  - intros (part & Hin & Hex). exists part. split.
    + by apply list_elem_of_In.
    + by apply bool_decide_eq_true.
Qed.

(** C7 (the code at the failing input). With [--exclude tmp] the
    exclusion set of the watcher is [{tmp}] alone: the default name
    [.git] is not in it, and a change to [proj/.git/config] is reported
    as activity. *)
Theorem extra_excludes_replace_defaults :
  let w := app_watcher (Some "tmp"%string) in
  (".git"%string ∈ DEFAULT_EXCLUDES) ∧
  excludes w = {[ "tmp"%string ]} ∧
  (".git"%string ∉ excludes w) ∧
  on_any_event w (mkEvent false "proj/.git/config") = true ∧
  on_any_event (app_watcher None) (mkEvent false "proj/.git/config") = false.
Proof.
  intros w.
  assert (Hw : excludes w = {[ "tmp"%string ]}).
  { subst w. unfold app_watcher. simpl main_excludes.
    rewrite init_excludes_nonempty; set_solver. }
  split; [unfold DEFAULT_EXCLUDES; set_solver|].
  split; [exact Hw|]. split; [rewrite Hw; set_solver|].
  split; vm_compute; reflexivity.
Qed.

(** C10. An event emits the activity notification if and only if its
    directory flag is false and no component of its path equals a name
    of the exclusion set. Components are compared whole: under the
    default set a path with the component [node_modules] is dropped, one
    with the component [node_modules_extra] is not. *)
Theorem on_any_event_emits (w : ProjectWatcher) (event : FileSystemEvent) :
  (on_any_event w event = true ↔
     is_directory event = false ∧
     ∀ part, part ∈ Path_parts (src_path event) → part ∉ excludes w) ∧
  on_any_event (ProjectWatcher_init None)
     (mkEvent false "proj/node_modules/pkg/index.js") = false ∧
  on_any_event (ProjectWatcher_init None)
     (mkEvent false "proj/node_modules_extra/pkg/index.js") = true.
Proof.
  split; [|split; vm_compute; reflexivity].
  unfold on_any_event. destruct (is_directory event).
  - split; [discriminate | intros [? _]; discriminate].
  - destruct (_should_ignore w (src_path event)) eqn:E.
    + apply should_ignore_spec in E as (part & Hin & Hex).
      split; [discriminate|]. intros [_ Hno]. by destruct (Hno part Hin).
    + split; [|reflexivity]. intros _. split; [reflexivity|].
      intros part Hin Hex.
      assert (_should_ignore w (src_path event) = true) as Ht
        by (apply should_ignore_spec; eauto).
      congruence.
Qed.

(** ** Construction and the fresh ledger *)

(** [_analyze] leaves the configuration alone. *)
Lemma analyze_config content t t' r : config (_analyze content t t' r) = config r.
Proof.
  unfold _analyze.
  repeat match goal with |- context [if ?b then _ else _] => destruct b end;
    reflexivity.
Qed.

(** [check] leaves the configuration alone. *)
Lemma check_config f t t' self :
  config (state_resolver (check f t t' self).2) = config (state_resolver self).
Proof.
  destruct (path_exists f) as [[|]|emsg] eqn:He.
  - destruct (stat_st_size f) as [size|msg] eqn:Hs.
    + rewrite (check_stat_returned f t t' self size He Hs). simpl.
      destruct (_ <? _)%nat; [destruct (open_read f)|]; simpl;
        [apply analyze_config | reflexivity | reflexivity].
    + by rewrite (check_stat_raised f t t' self msg He Hs).
  - by rewrite (check_missing f t t' self He).
  - by rewrite (check_exists_raised f t t' self emsg He).
Qed.

(** C8 (counterexample). A configuration with [error_duration = -1] is
    accepted: the constructor returns a resolver holding it and raises
    nothing. *)
Lemma init_accepts_nonpositive_duration :
  let cfg := mkConfig (-1) 4 3 1.2 8 in
  error_duration cfg <= 0 ∧
  StateResolver_init (Some cfg) = Returned (fresh_resolver cfg) ∧
  ∀ msg, StateResolver_init (Some cfg) ≠ Raised msg.
Proof. split; [vm_compute; congruence|]. split; [reflexivity | discriminate]. Qed.

(** C8 (amended). Construction checks nothing: for every configuration,
    whatever the sign of its durations, it succeeds and the resolver
    holds that configuration (the defaults when none is given). The
    durations then stay constant: no mutator, no classification and no
    poll of the log changes them. *)
Theorem durations_fixed_at_construction :
  (∀ cfg, StateResolver_init (Some cfg) = Returned (fresh_resolver cfg)) ∧
  StateResolver_init None = Returned (fresh_resolver StateConfig_default) ∧
  (∀ r t t',
     config (on_fs_activity t r) = config r ∧
     config (on_log_activity t r) = config r ∧
     config (on_running t t' r) = config r ∧
     config (on_success t t' r) = config r ∧
     config (on_error t t' r) = config r) ∧
  (∀ content t t' r, config (_analyze content t t' r) = config r) ∧
  (∀ f t t' self,
     config (state_resolver (check f t t' self).2)
     = config (state_resolver self)).
Proof.
  split; [reflexivity|]. split; [reflexivity|].
  split; [intros; repeat split|].
  split; [apply analyze_config | apply check_config].
Qed.

(** C9 (counterexample). The fresh ledger holds 0.0 in every field; at
    [now = 1] the ERROR condition [1 - 0 < 6] is true and [resolve]
    returns ERROR, not IDLE. *)
Lemma fresh_resolver_not_idle_near_epoch :
  StateResolver_init None = Returned (fresh_resolver StateConfig_default) ∧
  decay_condition (fresh_resolver StateConfig_default) 1 ERROR = true ∧
  resolve (fresh_resolver StateConfig_default) 1 = ERROR ∧
  resolve (fresh_resolver StateConfig_default) 1 ≠ IDLE.
Proof. vm_compute. repeat split; congruence. Qed.

(** The same with a clock of today and a long window: a positive
    [thinking_threshold] of 2e9 seconds makes a fresh resolver THINKING
    at [now = 1.7e9]. *)
Example fresh_resolver_thinking_long_window :
  resolve (fresh_resolver (mkConfig 6 4 3 1.2 2000000000)) 1700000000 = THINKING.
Proof. vm_compute. reflexivity. Qed.

(** C9 (amended). The five timestamps start at 0.0, the epoch. For a
    freshly constructed resolver on which no mutator has been called,
    [resolve] returns IDLE exactly at the times [now] that are at least
    every configured duration (from 8.0 on with the defaults); at an
    earlier [now] some decay condition is true and the result is not
    IDLE. *)
Theorem fresh_resolver_idle (cfg : StateConfig) (now : Time.t) :
  timestamps (fresh_resolver cfg) = mkTimestamps 0 0 0 0 0 ∧
  (resolve (fresh_resolver cfg) now = IDLE ↔
     error_duration cfg <= now ∧ success_duration cfg <= now ∧
     running_duration cfg <= now ∧ typing_threshold cfg <= now ∧
     thinking_threshold cfg <= now).
Proof.
  split; [reflexivity|].
  unfold resolve, fresh_resolver. simpl.
  change (Time.max 0 0) with 0.
  destruct (Time.ltb (now - 0) (error_duration cfg)) eqn:E5;
  destruct (Time.ltb (now - 0) (success_duration cfg)) eqn:E4;
  destruct (Time.ltb (now - 0) (running_duration cfg)) eqn:E3;
  destruct (Time.ltb (now - 0) (typing_threshold cfg)) eqn:E2;
  destruct (Time.ltb (now - 0) (thinking_threshold cfg)) eqn:E1;
  repeat match goal with
         | H : Time.ltb _ _ = true |- _ => apply ltb_lt in H
         | H : Time.ltb _ _ = false |- _ => apply ltb_ge in H
         end;
  (split; [try discriminate; intros _ | intros (?&?&?&?&?)]);
  first [reflexivity | repeat split; lra | exfalso; lra].
Qed.

(** The fresh ledger at work: with the defaults, IDLE at 8.0. *)
Lemma fresh_resolver_idle_witness :
  resolve (fresh_resolver StateConfig_default) 8 = IDLE.
Proof.
  apply (fresh_resolver_idle StateConfig_default 8).
  vm_compute. repeat split; congruence.
Defined.

(** * Further properties of the code *)

(** ** The resolver over time *)

(** A decay condition true at some time was true at every earlier time. *)
Lemma decay_condition_earlier r now1 now2 s :
  now1 <= now2 →
  decay_condition r now2 s = true → decay_condition r now1 s = true.
Proof.
  intros Hle. destruct s; simpl; try reflexivity;
    rewrite !ltb_lt; intros H; lra.
Qed.

(** X1. On a ledger that no mutator touches, the state only decays: the
    priority of the state resolved never rises as the clock advances. *)
Theorem resolve_only_decays (r : StateResolver) (now1 now2 : Time.t) :
  now1 <= now2 →
  (State_value (resolve r now2) ≤ State_value (resolve r now1))%nat.
Proof.
  intros Hle. apply resolve_highest.
  apply (decay_condition_earlier r now1 now2); [exact Hle|].
  apply resolve_condition.
Qed.

Lemma resolve_only_decays_witness :
  let r := on_success 1000 1000 (fresh_resolver StateConfig_default) in
  (State_value (resolve r 1005) ≤ State_value (resolve r 1002))%nat.
Proof.
  intros r. apply resolve_only_decays. vm_compute. congruence.
Defined.

(** X2. Calling a trigger again replaces its earlier stamp: the ledger
    after two calls is the ledger after the second alone, so the decay
    window is counted from the latest call, whatever came before. *)
Theorem retrigger_restarts_window
  (e : Trigger) (r : StateResolver) (T1 t1 T2 t2 now : Time.t) :
  fire e T2 t2 (fire e T1 t1 r) = fire e T2 t2 r ∧
  (decay_condition (fire e T2 t2 (fire e T1 t1 r)) now (trigger_state e) = true
   ↔ now - T2 < trigger_duration (config r) e).
Proof.
  assert (Heq : fire e T2 t2 (fire e T1 t1 r) = fire e T2 t2 r)
    by (by destruct e).
  split; [exact Heq|]. rewrite Heq, fire_condition. apply ltb_lt.
Qed.

(** The four upper decay conditions do not read the log-activity stamp. *)
Lemma on_log_activity_condition t r now s :
  (2 ≤ State_value s)%nat →
  decay_condition (on_log_activity t r) now s = decay_condition r now s.
Proof. destruct s; simpl; intros; first [reflexivity | lia]. Qed.

(** The three classified decay conditions do not read the file-system
    stamp. *)
Lemma on_fs_activity_condition t r now s :
  (3 ≤ State_value s)%nat →
  decay_condition (on_fs_activity t r) now s = decay_condition r now s.
Proof. destruct s; simpl; intros; first [reflexivity | lia]. Qed.

(** Two resolvers that agree on the decay conditions from level [k] up
    agree on whether a state of level [k] or more is resolved. *)
Lemma resolve_agree_above (k : nat) r r' now s :
  (∀ s', (k ≤ State_value s')%nat →
         decay_condition r' now s' = decay_condition r now s') →
  (k ≤ State_value s)%nat →
  resolve r now = s → resolve r' now = s.
Proof.
  intros Hagree Hk Hs. apply resolve_unique.
  - rewrite Hagree by exact Hk. rewrite <- Hs. apply resolve_condition.
  - intros s' Hlt. rewrite Hagree by lia.
    destruct (decay_condition r now s') eqn:E; [|reflexivity].
    apply resolve_highest in E. rewrite Hs in E. lia.
Qed.

(** X3. Generic log activity can only move the avatar between IDLE and
    THINKING: whether TYPING, RUNNING, SUCCESS or ERROR is resolved is the
    same before and after [on_log_activity]. *)
Theorem on_log_activity_only_thinking
  (t : Time.t) (r : StateResolver) (now : Time.t) (s : State) :
  (2 ≤ State_value s)%nat →
  (resolve (on_log_activity t r) now = s ↔ resolve r now = s).
Proof.
  intros Hs. split; apply (resolve_agree_above 2); try exact Hs;
    intros s' Hs'; [symmetry|]; by apply on_log_activity_condition.
Qed.

Lemma on_log_activity_only_thinking_witness :
  let r := on_running 1000 1000 (fresh_resolver StateConfig_default) in
  resolve (on_log_activity 1001 r) 1002 = RUNNING.
Proof.
  intros r. apply on_log_activity_only_thinking; [simpl; lia|].
  vm_compute. reflexivity.
Defined.

(** X4. File-system activity never touches the log-driven states: whether
    RUNNING, SUCCESS or ERROR is resolved is the same before and after
    [on_fs_activity]. *)
Theorem on_fs_activity_keeps_classified
  (t : Time.t) (r : StateResolver) (now : Time.t) (s : State) :
  (3 ≤ State_value s)%nat →
  (resolve (on_fs_activity t r) now = s ↔ resolve r now = s).
Proof.
  intros Hs. split; apply (resolve_agree_above 3); try exact Hs;
    intros s' Hs'; [symmetry|]; by apply on_fs_activity_condition.
Qed.

Lemma on_fs_activity_keeps_classified_witness :
  let r := on_error 1000 1000 (fresh_resolver StateConfig_default) in
  resolve (on_fs_activity 1001 r) 1002 = ERROR.
Proof.
  intros r. apply on_fs_activity_keeps_classified; [simpl; lia|].
  vm_compute. reflexivity.
Defined.



(** ** Polling the log *)

(** The three patterns find nothing in an empty chunk. *)
Lemma analyze_empty t t' r : _analyze [] t t' r = on_log_activity t r.
Proof. reflexivity. Qed.

(** A poll that finds the size equal to the cursor changes nothing. *)
Lemma check_same_size f t t' self :
  path_exists f = Returned true →
  stat_st_size f = Returned (position self) →
  check f t t' self = (Returned tt, self).
Proof.
  intros He Hs. rewrite (check_stat_returned f t t' self _ He Hs).
  unfold cursor_after_stat. rewrite Nat.ltb_irrefl. rewrite Nat.ltb_irrefl.
  by destruct self.
Qed.

(** X6. A poll that finds the size equal to the cursor does nothing: the
    file is not opened (so it does not matter whether it could be), and
    the cursor and the ledger stay as they are. *)
Theorem check_unchanged_size_noop
  (f : LogFile) (t t' : Time.t) (self : LogTailer) :
  path_exists f = Returned true →
  stat_st_size f = Returned (position self) →
  check f t t' self = (Returned tt, self).
Proof.
  intros He Hs. rewrite (check_stat_returned f t t' self _ He Hs).
  unfold cursor_after_stat. rewrite Nat.ltb_irrefl. rewrite Nat.ltb_irrefl.
  by destruct self.
Qed.

Lemma check_unchanged_size_noop_witness :
  let self := mkTailer (fresh_resolver StateConfig_default) 42 in
  check (mkLogFile (Returned true) (Returned 42%nat) (Raised "PermissionError")) 1000 1000 self
  = (Returned tt, self).
Proof. intros self. apply check_unchanged_size_noop; reflexivity. Defined.

(** A poll of a file that has grown past the cursor reads what lies
    beyond the cursor. *)
Lemma check_reads_new_bytes
  (f : LogFile) (t t' : Time.t) (self : LogTailer)
  (size : nat) (old new : list byte) :
  path_exists f = Returned true →
  stat_st_size f = Returned size →
  open_read f = Returned (old ++ new) →
  length old = position self →
  (position self < size)%nat →
  check f t t' self =
    (Returned tt,
     mkTailer
       (_analyze (translate_newlines (utf8_decode_ignore (map Byte.to_N new)))
                 t t' (state_resolver self))
       (length old + length new)).
Proof.
  intros He Hs Hr Hlen Hlt.
  rewrite (check_stat_returned f t t' self size He Hs).
  assert (Hc : cursor_after_stat size self = position self).
  { unfold cursor_after_stat.
    destruct (Nat.ltb_spec size (position self)); [lia | reflexivity]. }
  rewrite Hc, Hr.
  destruct (Nat.ltb_spec (position self) size); [|lia].
  unfold read_from, tell_after_read.
  rewrite <- Hlen, drop_app_length. reflexivity.
Qed.

(** X7. When the file has grown past the cursor, only the bytes from the
    cursor on are decoded and classified, as one chunk, and the cursor
    moves to the end of the file. *)
Theorem check_growth
  (f : LogFile) (t t' : Time.t) (self : LogTailer)
  (size : nat) (old new : list byte) :
  path_exists f = Returned true →
  stat_st_size f = Returned size →
  open_read f = Returned (old ++ new) →
  length old = position self →
  (position self < size)%nat →
  check f t t' self =
    (Returned tt,
     mkTailer
       (_analyze (translate_newlines (utf8_decode_ignore (map Byte.to_N new)))
                 t t' (state_resolver self))
       (length old + length new)).
Proof.
  intros He Hs Hr Hlen Hlt.
  rewrite (check_stat_returned f t t' self size He Hs).
  assert (Hc : cursor_after_stat size self = position self).
  { unfold cursor_after_stat.
    destruct (Nat.ltb_spec size (position self)); [lia | reflexivity]. }
  rewrite Hc, Hr.
  destruct (Nat.ltb_spec (position self) size); [|lia].
  unfold read_from, tell_after_read.
  rewrite <- Hlen, drop_app_length. reflexivity.
Qed.

Lemma check_growth_witness :
  let r := fresh_resolver StateConfig_default in
  let f := mkLogFile (Returned true) (Returned 13%nat)
             (Returned (bytes "error" ++ bytes " all done")) in
  check f 1000 1001 (mkTailer r 5)
  = (Returned tt, mkTailer (on_success 1000 1001 r) 14).
Proof.
  intros r f.
  rewrite (check_growth f 1000 1001 (mkTailer r 5) 13
             (bytes "error") (bytes " all done"));
    [reflexivity | reflexivity | reflexivity | reflexivity | reflexivity
    | simpl; lia].
Defined.

(** After a poll of a file that did not change meanwhile, the cursor is
    the size of the file, wherever it was before. *)
Lemma check_stable_cursor data t t' self :
  position (check (stable_file data) t t' self).2 = length data.
Proof.
  rewrite (check_stat_returned (stable_file data) t t' self (length data))
    by reflexivity.
  unfold cursor_after_stat. simpl.
  destruct (Nat.ltb_spec (length data) (position self)) as [Hlt|Hge].
  - destruct (Nat.ltb_spec 0 (length data)) as [Hpos|Hz]; simpl; [reflexivity|lia].
  - destruct (Nat.ltb_spec (position self) (length data)) as [Hlt|Hge']; simpl.
    + unfold tell_after_read. rewrite length_drop. lia.
    + lia.
Qed.

(** X8. Polling twice a file that has not changed classifies nothing the
    second time: after any poll of such a file the cursor is its size,
    and a further poll leaves the cursor and the ledger alone. *)
Theorem check_twice_reads_once
  (data : list byte) (t t' u u' : Time.t) (self : LogTailer) :
  let self1 := (check (stable_file data) t t' self).2 in
  position self1 = length data ∧
  check (stable_file data) u u' self1 = (Returned tt, self1).
Proof.
  intros self1. pose proof (check_stable_cursor data t t' self) as Hpos.
  split; [exact Hpos|].
  apply check_same_size; [reflexivity|].
  simpl. subst self1. by rewrite Hpos.
Qed.

(** Polls of an append-only log from a cursor at the end of the file:
    the batches are classified one by one and the cursor follows the end
    of the file. *)
Lemma poll_appended_from_end batches data self :
  position self = length data →
  foldl poll_appended (data, self) batches
  = (data ++ concat (map (λ b, b.1.1) batches),
     mkTailer (classify_batches (state_resolver self) batches)
              (length (data ++ concat (map (λ b, b.1.1) batches)))).
Proof.
  revert data self. induction batches as [|[[batch t] t'] batches IH];
    intros data self Hpos.
  - simpl. rewrite app_nil_r, <- Hpos. by destruct self.
  - simpl foldl. unfold poll_appended at 2. simpl.
    destruct batch as [|b batch].
    + rewrite app_nil_r.
      rewrite (check_same_size (stable_file data) t t' self)
        by first [reflexivity | simpl; by rewrite Hpos].
      simpl. by apply IH.
    + rewrite (check_reads_new_bytes (stable_file (data ++ b :: batch)) t t'
                 self (length (data ++ b :: batch)) data (b :: batch))
        by (simpl; first [reflexivity | done | rewrite Hpos, length_app; simpl; lia]).
      simpl. rewrite IH by (simpl; by rewrite length_app).
      simpl. by rewrite <- !app_assoc.
Qed.

(** X9. As long as the log is only appended to after start-up (and does
    not change during a poll), what it held when the tailer was created
    is never classified: the tailer starts with its cursor at the end of
    that content, and after any sequence of polls the ledger is the
    result of classifying the appended non-empty batches alone, one
    chunk each, in order, with the cursor at the end of the file. *)
Theorem startup_content_never_classified
  (data0 : list byte) (r : StateResolver)
  (batches : list (list byte * Time.t * Time.t)) :
  LogTailer_init (stable_file data0) r = Returned (mkTailer r (length data0)) ∧
  foldl poll_appended (data0, mkTailer r (length data0)) batches
  = (data0 ++ concat (map (λ b, b.1.1) batches),
     mkTailer (classify_batches r batches)
              (length (data0 ++ concat (map (λ b, b.1.1) batches)))).
Proof.
  split; [reflexivity|].
  by rewrite (poll_appended_from_end batches data0 (mkTailer r (length data0))).
Qed.

(** A start-up log full of errors, then two appended lines: only the
    lines count. *)
Example startup_errors_ignored :
  let r := fresh_resolver StateConfig_default in
  (foldl poll_appended
     (bytes "fatal error", mkTailer r 11)
     [ (bytes " build", 1000, 1000); ([], 1001, 1001);
       (bytes " done", 1002, 1002) ]).2
  = mkTailer (on_success 1002 1002 (on_running 1000 1000 r)) 22.
Proof. vm_compute. reflexivity. Qed.

(** X10. Consecutive polls of a log that is only appended to classify
    every appended batch once and on its own: after a poll of [data1],
    a poll of [data1 ++ data2] classifies exactly the text of [data2]. *)
Theorem check_append_only
  (data1 data2 : list byte) (t t' u u' : Time.t) (self : LogTailer) :
  data2 ≠ [] →
  let self1 := (check (stable_file data1) t t' self).2 in
  check (stable_file (data1 ++ data2)) u u' self1 =
    (Returned tt,
     mkTailer
       (_analyze (translate_newlines (utf8_decode_ignore (map Byte.to_N data2)))
                 u u' (state_resolver self1))
       (length data1 + length data2)).
Proof.
  intros Hne self1.
  pose proof (check_stable_cursor data1 t t' self) as Hpos. fold self1 in Hpos.
  apply (check_reads_new_bytes _ u u' self1 (length (data1 ++ data2)));
    [reflexivity | reflexivity | reflexivity | by rewrite Hpos |].
  rewrite Hpos, length_app. destruct data2; [done | simpl; lia].
Qed.

Lemma check_append_only_witness :
  let r := fresh_resolver StateConfig_default in
  let self1 := (check (stable_file (bytes "compile")) 1000 1000 (mkTailer r 0)).2 in
  check (stable_file (bytes "compile" ++ bytes " failed")) 1001 1001 self1
  = (Returned tt, mkTailer (on_error 1001 1001 (on_running 1000 1000 r)) 14).
Proof.
  intros r self1. subst self1.
  rewrite (check_append_only (bytes "compile") (bytes " failed")
             1000 1000 1001 1001 (mkTailer r 0)) by discriminate.
  reflexivity.
Defined.

(** X11. A file cut short between the size query and the read: the size
    reported is past the cursor, but the data delivered ends at or before
    it. The chunk read is empty; it still counts as generic log activity,
    and the cursor stays where it was. *)
Theorem check_truncated_before_read
  (f : LogFile) (t t' : Time.t) (self : LogTailer)
  (size : nat) (data : list byte) :
  path_exists f = Returned true →
  stat_st_size f = Returned size →
  open_read f = Returned data →
  (position self < size)%nat →
  (length data ≤ position self)%nat →
  check f t t' self =
    (Returned tt,
     mkTailer (on_log_activity t (state_resolver self)) (position self)).
Proof.
  intros He Hs Hr Hlt Hshort.
  rewrite (check_stat_returned f t t' self size He Hs).
  assert (Hc : cursor_after_stat size self = position self).
  { unfold cursor_after_stat.
    destruct (Nat.ltb_spec size (position self)); [lia | reflexivity]. }
  rewrite Hc, Hr.
  destruct (Nat.ltb_spec (position self) size); [|lia].
  unfold read_from, tell_after_read.
  rewrite drop_ge by exact Hshort. simpl.
  by rewrite Nat.add_0_r.
Qed.

Lemma check_truncated_before_read_witness :
  let r := fresh_resolver StateConfig_default in
  check (mkLogFile (Returned true) (Returned 150%nat) (Returned (bytes "error")))
        1000 1000 (mkTailer r 100)
  = (Returned tt, mkTailer (on_log_activity 1000 r) 100).
Proof.
  intros r.
  rewrite (check_truncated_before_read
             (mkLogFile (Returned true) (Returned 150%nat) (Returned (bytes "error")))
             1000 1000 (mkTailer r 100) 150 (bytes "error"));
    [reflexivity | reflexivity | reflexivity | reflexivity
    | simpl; lia | simpl; lia].
Defined.

(** ** What the patterns see *)

(** Folding twice is folding once. *)
Lemma ignorecase_idem (c : N) : ignorecase (ignorecase c) = ignorecase c.
Proof.
  unfold ignorecase.
  repeat match goal with
         | |- context [(?a <=? ?b)%N] => destruct (N.leb_spec a b)
         | |- context [(?a =? ?b)%N] => destruct (N.eqb_spec a b)
         end; simpl in *; first [reflexivity | lia].
Qed.

Lemma starts_with_fold pat txt :
  starts_with pat (map ignorecase txt) = starts_with pat txt.
Proof.
  revert txt. induction pat as [|p pat IH]; intros [|c txt]; simpl;
    try reflexivity.
  by rewrite ignorecase_idem, IH.
Qed.

Lemma occurs_fold pat txt : occurs pat (map ignorecase txt) = occurs pat txt.
Proof.
  induction txt as [|c txt IH].
  - reflexivity.
  - change (map ignorecase (c :: txt)) with (ignorecase c :: map ignorecase txt).
    change (occurs pat (ignorecase c :: map ignorecase txt))
      with (starts_with pat (map ignorecase (c :: txt))
            || occurs pat (map ignorecase txt)).
    by rewrite starts_with_fold, IH.
Qed.

(** A pattern sees the content only up to letter case. *)
Lemma search_fold p content : search p (map ignorecase content) = search p content.
Proof.
  unfold search. induction p as [|alt p IH]; [reflexivity|].
  simpl. by rewrite occurs_fold, IH.
Qed.

(** X12. Classification does not depend on letter case: two chunks that
    differ only in the case of their letters (in what [re.IGNORECASE]
    identifies) stamp the ledger alike. *)
Theorem analyze_case_insensitive
  (c1 c2 : text) (t t' : Time.t) (r : StateResolver) :
  map ignorecase c1 = map ignorecase c2 →
  _analyze c1 t t' r = _analyze c2 t t' r.
Proof.
  intros Heq. unfold _analyze.
  rewrite <- (search_fold LogPatterns.ERROR c1),
          <- (search_fold LogPatterns.SUCCESS c1),
          <- (search_fold LogPatterns.RUNNING c1), Heq.
  by rewrite !search_fold.
Qed.

Lemma analyze_case_insensitive_witness :
  let r := fresh_resolver StateConfig_default in
  _analyze (codepoints "Build FAILED") 1000 1000 r
  = _analyze (codepoints "build failed") 1000 1000 r.
Proof. intros r. apply analyze_case_insensitive. reflexivity. Defined.

(** A match survives any text put before and after it. *)
Lemma search_extend p pre mid post :
  search p mid = true → search p (pre ++ mid ++ post) = true.
Proof.
  rewrite !search_spec.
  intros (alt & pre' & mid' & post' & Hin & -> & Hmap).
  exists alt, (pre ++ pre'), mid', (post' ++ post).
  split; [done|]. split; [|done]. by rewrite <- !app_assoc.
Qed.

(** X13. An error word anywhere in a chunk makes the whole chunk an
    error: if the ERROR pattern matches a stretch of text, every chunk
    that contains the stretch is classified by [on_error], whatever
    success or progress words surround it. *)
Theorem analyze_error_anywhere
  (pre mid post : text) (t t' : Time.t) (r : StateResolver) :
  search LogPatterns.ERROR mid = true →
  _analyze (pre ++ mid ++ post) t t' r = on_error t t' r.
Proof.
  intros H. unfold _analyze. by rewrite (search_extend _ pre mid post H).
Qed.

Lemma analyze_error_anywhere_witness :
  let r := fresh_resolver StateConfig_default in
  _analyze (codepoints "build done, " ++ codepoints "Traceback" ++ codepoints " ... passed")
           1000 1000 r
  = on_error 1000 1000 r.
Proof. intros r. apply analyze_error_anywhere. reflexivity. Defined.

(** ** The exclusion set *)

Lemma DEFAULT_EXCLUDES_nonempty : DEFAULT_EXCLUDES ≠ ∅.
Proof.
  assert (".git"%string ∈ DEFAULT_EXCLUDES) by (unfold DEFAULT_EXCLUDES; set_solver).
  set_solver.
Qed.

(** X14. A watcher never has an empty exclusion set: without a set from
    the caller, and with an empty one, it has the defaults; with any
    other set, exactly that set. *)
Theorem excludes_never_empty (excl : option (gset string)) :
  excludes (ProjectWatcher_init excl) ≠ ∅ ∧
  excludes (ProjectWatcher_init None) = DEFAULT_EXCLUDES ∧
  excludes (ProjectWatcher_init (Some ∅)) = DEFAULT_EXCLUDES ∧
  (∀ X : gset string, X ≠ ∅ → excludes (ProjectWatcher_init (Some X)) = X).
Proof.
  split; [|split; [|split]].
  - destruct excl as [X|]; simpl; [|apply DEFAULT_EXCLUDES_nonempty].
    destruct (decide (X = ∅)); [apply DEFAULT_EXCLUDES_nonempty | done].
  - reflexivity.
  - reflexivity.
  - intros X HX. simpl. by rewrite decide_False.
Qed.

Lemma excludes_never_empty_witness :
  excludes (ProjectWatcher_init (Some {[ "tmp"%string ]})) = {[ "tmp"%string ]}.
Proof.
  destruct (excludes_never_empty None) as (_ & _ & _ & H).
  apply H. intros Hempty.
  apply (not_elem_of_empty (C:=gset string) "tmp"%string).
  rewrite <- Hempty. by apply elem_of_singleton.
Defined.

(** [str.split] never returns an empty list. *)
Lemma str_split_nonempty sep s : str_split sep s ≠ [].
Proof.
  destruct s as [|c s]; simpl; [done|].
  destruct (Ascii.eqb c sep); [done|]. by destruct (str_split sep s).
Qed.

(** No piece of a split holds the separator. *)
Lemma str_split_no_sep sep s piece :
  piece ∈ str_split sep s → has_char sep piece = false.
Proof.
  revert piece. induction s as [|c s IH]; intros piece; simpl.
  - rewrite list_elem_of_singleton. by intros ->.
  - destruct (Ascii.eqb c sep) eqn:E.
    + rewrite elem_of_cons. intros [->|Hin]; [reflexivity | by apply IH].
    + destruct (str_split sep s) as [|p ps] eqn:Es.
      * rewrite list_elem_of_singleton. intros ->. unfold has_char. simpl.
        by rewrite Ascii.eqb_sym, E.
      * rewrite elem_of_cons. intros [->|Hin].
        -- unfold has_char. simpl. rewrite Ascii.eqb_sym, E. simpl.
           apply (IH p). rewrite elem_of_cons. by left.
        -- apply IH. rewrite elem_of_cons. by right.
Qed.

(** Joining the pieces with the separator gives the string back. *)
Lemma str_split_concat sep s :
  String.concat (String sep EmptyString) (str_split sep s) = s.
Proof.
  induction s as [|c s IH]; [reflexivity|]. simpl.
  pose proof (str_split_nonempty sep s) as Hne.
  destruct (Ascii.eqb_spec c sep) as [->|Hc].
  - destruct (str_split sep s) as [|p ps]; [done|].
    simpl in *. by rewrite IH.
  - destruct (str_split sep s) as [|p ps]; [done|].
    destruct ps as [|p' ps]; simpl in *; by rewrite <- IH.
Qed.

(** X15. With a non-empty [--exclude] option the exclusion set of the
    watcher is exactly the set of the comma-separated pieces of the
    option: a name is excluded if and only if it is one of the pieces.
    No piece holds a comma, and the pieces joined by commas are the
    option text. *)
Theorem cli_excludes_are_the_pieces (s name : string) :
  s ≠ EmptyString →
  (name ∈ excludes (app_watcher (Some s)) ↔ name ∈ str_split "," s) ∧
  (name ∈ excludes (app_watcher (Some s)) → has_char "," name = false) ∧
  String.concat "," (str_split "," s) = s.
Proof.
  intros Hs.
  assert (Hex : excludes (app_watcher (Some s)) = list_to_set (str_split "," s)).
  { unfold app_watcher. destruct s as [|c s]; [done|].
    simpl main_excludes. apply init_excludes_nonempty.
    pose proof (str_split_nonempty "," (String c s)) as Hne.
    destruct (str_split "," (String c s)) as [|p ps]; [done|]. set_solver. }
  rewrite Hex. split; [apply elem_of_list_to_set|].
  split; [|apply str_split_concat].
  rewrite elem_of_list_to_set. apply str_split_no_sep.
Qed.

Lemma cli_excludes_are_the_pieces_witness :
  ("tmp"%string ∈ excludes (app_watcher (Some ".cache,tmp"%string))) ∧
  ("node_modules"%string ∉ excludes (app_watcher (Some ".cache,tmp"%string))).
Proof.
  destruct (cli_excludes_are_the_pieces ".cache,tmp" "tmp") as (H1 & _);
    [discriminate|].
  destruct (cli_excludes_are_the_pieces ".cache,tmp" "node_modules") as (H2 & _);
    [discriminate|].
  split.
  - apply H1. simpl. rewrite !elem_of_cons. auto.
  - intros Hin. apply H2 in Hin. simpl in Hin.
    rewrite !elem_of_cons, elem_of_nil in Hin.
    destruct Hin as [?|[?|[]]]; discriminate.
Defined.

(** ** Path components *)

(** The components of a path between its slashes. *)
Lemma Path_parts_split path part :
  part ∈ Path_parts path ↔
  part ∈ path_root path ∨
  (part ∈ str_split "/" path ∧ part ≠ EmptyString ∧ part ≠ "."%string).
Proof.
  unfold Path_parts. rewrite elem_of_app, list_elem_of_filter. tauto.
Qed.

(** A root is ["/"] or ["//"]. *)
Lemma path_root_cases path part :
  part ∈ path_root path → part = "/"%string ∨ part = "//"%string.
Proof.
  unfold path_root.
  repeat match goal with
         | |- context [match ?x with _ => _ end] => destruct x
         end;
    rewrite ?elem_of_nil, ?list_elem_of_singleton; intros H;
    first [by destruct H | by left | by right].
Qed.

(** Every component is a root or a non-empty name other than ["."]
    without a slash in it. *)
Lemma Path_parts_component path part :
  part ∈ Path_parts path →
  part = "/"%string ∨ part = "//"%string ∨
  (part ≠ EmptyString ∧ part ≠ "."%string ∧ has_char "/" part = false).
Proof.
  rewrite Path_parts_split. intros [Hroot | (Hin & Hne & Hdot)].
  - apply path_root_cases in Hroot. tauto.
  - right. right. split; [done|]. split; [done|].
    by apply (str_split_no_sep "/" path).
Qed.

(** Splitting distributes over a separator in the middle. *)
Lemma str_split_app sep a b :
  str_split sep (a +:+ String sep b) = str_split sep a ++ str_split sep b.
Proof.
  induction a as [|c a IH]; simpl.
  - by rewrite Ascii.eqb_refl.
  - destruct (Ascii.eqb c sep).
    + by rewrite IH.
    + rewrite IH. pose proof (str_split_nonempty sep a) as Hne.
      by destruct (str_split sep a).
Qed.

(** X16. An exclusion name can only ever match if it is a root or a
    non-empty name other than ["."] with no slash in it. A watcher whose
    exclusion names are all of the other kind (such as [src/generated])
    ignores no path at all. *)
Theorem unmatchable_excludes_ignore_nothing (w : ProjectWatcher) (path : string) :
  (∀ name, name ∈ excludes w →
     name = EmptyString ∨ name = "."%string ∨
     (has_char "/" name = true ∧ name ≠ "/"%string ∧ name ≠ "//"%string)) →
  _should_ignore w path = false.
Proof.
  intros Hall. destruct (_should_ignore w path) eqn:E; [|reflexivity].
  apply should_ignore_spec in E as (part & Hin & Hex).
  apply Path_parts_component in Hin.
  destruct (Hall part Hex) as [-> | [-> | (Hsl & Hr1 & Hr2)]].
  - destruct Hin as [? | [? | (? & _)]]; done.
  - destruct Hin as [? | [? | (_ & ? & _)]]; done.
  - destruct Hin as [? | [? | (_ & _ & ?)]]; congruence.
Qed.

Lemma unmatchable_excludes_ignore_nothing_witness :
  _should_ignore (mkWatcher {[ "src/generated"%string ]})
                 "proj/src/generated/api.py" = false.
Proof.
  apply unmatchable_excludes_ignore_nothing.
  intros name Hin. simpl in Hin. apply elem_of_singleton in Hin as ->.
  right. right. split; [reflexivity|]. split; discriminate.
Defined.

(** X17. Everything under an excluded name is ignored, however deep: if
    a component (not the root) of [dir] or of [rest] is in the exclusion
    set, no event on the path [dir/rest] is reported. This holds for a
    watched project that itself lies below a directory with an excluded
    name. *)
Theorem below_excluded_component
  (w : ProjectWatcher) (dir rest part : string) (is_dir : bool) :
  part ∈ Path_parts dir ∨ part ∈ Path_parts rest →
  part ≠ "/"%string → part ≠ "//"%string →
  part ∈ excludes w →
  on_any_event w (mkEvent is_dir (dir +:+ String "/" rest)) = false.
Proof.
  intros Hin Hr1 Hr2 Hex.
  assert (Hpart : part ∈ Path_parts (dir +:+ String "/" rest)).
  { apply Path_parts_split. right.
    rewrite str_split_app, elem_of_app.
    destruct Hin as [Hin | Hin]; apply Path_parts_split in Hin;
      (destruct Hin as [Hroot | (Hin & Hne & Hdot)];
       [apply path_root_cases in Hroot; tauto | tauto]). }
  unfold on_any_event. simpl.
  destruct is_dir; [reflexivity|].
  assert (_should_ignore w (dir +:+ String "/" rest) = true) as ->
    by (apply should_ignore_spec; eauto).
  reflexivity.
Qed.

Lemma below_excluded_component_witness :
  on_any_event (ProjectWatcher_init None)
    (mkEvent false "/home/dev/build/myproject/src/main.py") = false.
Proof.
  apply (below_excluded_component (ProjectWatcher_init None)
           "/home/dev/build/myproject" "src/main.py" "build" false).
  - left. apply list_elem_of_In. vm_compute. tauto.
  - discriminate.
  - discriminate.
  - simpl. unfold DEFAULT_EXCLUDES. rewrite elem_of_list_to_set.
    apply list_elem_of_In. simpl. tauto.
Defined.

(** ** The overlay *)


(** What [set_state] changes and what it keeps. *)
Lemma set_state_fields (state : State) (ov : AvatarOverlay) :
  let ov' := set_state state ov in
  current_state ov' = Some state ∧
  set_state state ov' = ov' ∧
  current_character ov' = current_character ov ∧
  movies ov' = movies ov ∧
  characters ov' = characters ov ∧
  (movies_get state (movies ov) = None → qt_calls ov' = qt_calls ov).
Proof.
  intros ov'. subst ov'. unfold set_state.
  destruct (bool_decide (current_state ov = Some state)) eqn:E.
  - apply bool_decide_eq_true in E. rewrite E.
    rewrite (bool_decide_eq_true_2 _ eq_refl). repeat split; done.
  - destruct (movies_get state (movies ov)) as [m|] eqn:Em; simpl;
      rewrite (bool_decide_eq_true_2 _ eq_refl); repeat split; done.
Qed.



(** X18. [set_state] settles on the state asked for: afterwards it is the
    current state, and asking for it again changes nothing and makes no
    call on the label or the movies. When no movie is loaded for the
    state, the label is not touched at all: it keeps the animation it
    showed before. *)
Theorem set_state_settles (state : State) (ov : AvatarOverlay) :
  let ov' := set_state state ov in
  current_state ov' = Some state ∧
  set_state state ov' = ov' ∧
  current_character ov' = current_character ov ∧
  movies ov' = movies ov ∧
  characters ov' = characters ov ∧
  (movies_get state (movies ov) = None → qt_calls ov' = qt_calls ov).
Proof.
  intros ov'. subst ov'. unfold set_state.
  destruct (bool_decide (current_state ov = Some state)) eqn:E.
  - apply bool_decide_eq_true in E. rewrite E.
    rewrite (bool_decide_eq_true_2 _ eq_refl). repeat split; done.
  - destruct (movies_get state (movies ov)) as [m|] eqn:Em; simpl;
      rewrite (bool_decide_eq_true_2 _ eq_refl); repeat split; done.
Qed.





(** ** Discovering the character packs *)

Global Instance entry_le_total : Total entry_le.
Proof. intros e1 e2. unfold entry_le. apply total, _. Qed.

Global Instance entry_le_trans : Transitive entry_le.
Proof. intros e1 e2 e3. unfold entry_le. apply transitivity. Qed.










(** X22. The character an overlay starts with: no character if and only
    if no pack was discovered; the requested default if it names a
    discovered pack; in every other case the first pack in name order.
    No state is current yet and no call was made on the label. *)
Theorem init_character_choice
  (assets : AssetsDir) (gif_exists : string → State → bool)
  (default_character : option string) (ov : AvatarOverlay) :
  AvatarOverlay_init assets gif_exists default_character = Returned ov →
  _discover_characters assets = Returned (characters ov) ∧
  current_state ov = None ∧ qt_calls ov = [] ∧
  (current_character ov = None ↔ characters ov = []) ∧
  (∀ name, default_character = Some name → name ≠ EmptyString →
           name ∈ characters ov → current_character ov = Some name) ∧
  ((∀ name, default_character = Some name →
            name = EmptyString ∨ name ∉ characters ov) →
   current_character ov = head (characters ov)).
Proof.
  unfold AvatarOverlay_init.
  destruct (_discover_characters assets) as [chars|msg]; [|discriminate].
  intros [= <-].
  assert (Hload : ∀ name, name ∈ chars →
            _load_character (gif_exists name) name (mkOverlay None None [] chars [])
            = mkOverlay None (Some name)
                (map (λ s, (s, mkMovie name s))
                     (filter (λ s, gif_exists name s = true) all_states))
                chars []).
  { intros name Hin. unfold _load_character. simpl.
    by rewrite bool_decide_eq_true_2. }
  assert (Hfirst :
            match chars with
            | first :: _ =>
                _load_character (gif_exists first) first
                  (mkOverlay None None [] chars [])
            | [] => mkOverlay None None [] chars []
            end
            = match chars with
              | first :: _ =>
                  mkOverlay None (Some first)
                    (map (λ s, (s, mkMovie first s))
                         (filter (λ s, gif_exists first s = true) all_states))
                    chars []
              | [] => mkOverlay None None [] chars []
              end).
  { destruct chars as [|first rest]; [done|]. apply Hload.
    apply elem_of_cons. by left. }
  destruct default_character as [[|c d]|].
  - rewrite Hfirst. destruct chars as [|first rest]; simpl;
      repeat split; try done; intros name [= <-]; done.
  - destruct (bool_decide (String c d ∈ chars)) eqn:E.
    + apply bool_decide_eq_true in E. rewrite (Hload _ E). simpl.
      repeat split; try done.
      all: try (intros ->; by apply elem_of_nil in E).
      all: try (by intros name [= <-]).
      all: try (intros Hnot; destruct (Hnot _ eq_refl); done).
    + apply bool_decide_eq_false in E. rewrite Hfirst.
      destruct chars as [|first rest]; simpl; repeat split; try done;
        intros name [= <-]; done.
  - rewrite Hfirst. destruct chars as [|first rest]; simpl;
      repeat split; done.
Qed.

Lemma init_character_choice_witness :
  let assets := AssetsListing
    [ mkEntry "zebra" (Returned true)
        (λ name, Returned (bool_decide (name = "idle.gif"%string)));
      mkEntry "notes.txt" (Returned false) (λ _, Returned false);
      mkEntry "cat" (Returned true)
        (λ name, Returned (bool_decide (name = "error.gif"%string)));
      mkEntry "empty" (Returned true) (λ _, Returned false) ] in
  ∃ ov, AvatarOverlay_init assets (λ _ _, true) (Some "dog"%string) = Returned ov ∧
        characters ov = ["cat"; "zebra"]%string ∧
        current_character ov = Some "cat"%string.
Proof.
  intros assets.
  destruct (AvatarOverlay_init assets (λ _ _, true) (Some "dog"%string))
    as [ov|msg] eqn:E; [|vm_compute in E; discriminate].
  exists ov. split; [reflexivity|].
  destruct (init_character_choice assets (λ _ _, true) (Some "dog"%string) ov E)
    as (Hd & _ & _ & _ & _ & Hhead).
  assert (Hchars : _discover_characters assets = Returned ["cat"; "zebra"]%string)
    by (vm_compute; reflexivity).
  rewrite Hchars in Hd. injection Hd as Hd. split; [by rewrite <- Hd|].
  rewrite Hhead; [by rewrite <- Hd|].
  intros name [= <-]. right. rewrite <- Hd. rewrite !elem_of_cons, elem_of_nil.
  intros [?|[?|[]]]; discriminate.
Defined.

(** ** The running application *)

Lemma app_run_app app evs1 evs2 :
  app_run app (evs1 ++ evs2) = app_run (app_run app evs1) evs2.
Proof. unfold app_run. apply foldl_app. Qed.

Lemma app_step_config app ev :
  config (app_resolver (app_step app ev)) = config (app_resolver app).
Proof.
  destruct ev as [event t | log t t' | now]; simpl.
  - by destruct (on_any_event _ _).
  - destruct (app_log_position app) as [pos|]; [|done]. simpl.
    apply (check_config log t t' (mkTailer (app_resolver app) pos)).
  - done.
Qed.

Lemma app_run_config app evs :
  config (app_resolver (app_run app evs)) = config (app_resolver app).
Proof.
  revert app. induction evs as [|ev evs IH]; intros app; [done|].
  change (app_run app (ev :: evs)) with (app_run (app_step app ev) evs).
  by rewrite IH, app_step_config.
Qed.

(** What [start] returns: the default configuration, an untouched ledger,
    and a cursor only if a log path was given. *)
Lemma start_returns excl log_path assets gif_exists observer_start log app :
  AvatarApp_start excl log_path assets gif_exists observer_start log
  = Returned app →
  app_resolver app = fresh_resolver StateConfig_default ∧
  app_project_watcher app = ProjectWatcher_init excl ∧
  (log_path = None ∨ log_path = Some EmptyString → app_log_position app = None).
Proof.
  unfold AvatarApp_start. simpl.
  destruct (AvatarOverlay_init assets gif_exists None) as [ov|]; [|discriminate].
  destruct observer_start; [|discriminate].
  destruct log_path as [[|c p]|].
  - intros [= <-]. by repeat split.
  - unfold LogTailer_init.
    destruct (path_exists log) as [[|]|]; [destruct (stat_st_size log)| |];
      try discriminate; intros [= <-]; simpl;
      (split; [done|]; split; [done|]; intros [?|?]; discriminate).
  - intros [= <-]. by repeat split.
Qed.

(** X23. The application always runs on the default durations: [start]
    builds the resolver without a configuration, and nothing that
    happens afterwards changes it. *)
Theorem app_durations_are_the_defaults
  excl log_path assets gif_exists observer_start log
  (app : AvatarApp) (evs : list AppEvent) :
  AvatarApp_start excl log_path assets gif_exists observer_start log
  = Returned app →
  config (app_resolver (app_run app evs)) = StateConfig_default.
Proof.
  intros Hstart. rewrite app_run_config.
  apply start_returns in Hstart as (-> & _). reflexivity.
Qed.

Lemma app_durations_are_the_defaults_witness :
  ∃ app,
    AvatarApp_start (Some {[ "tmp"%string ]}) (Some "agent.log"%string)
      AssetsMissing (λ _ _, false) (Returned tt)
      (stable_file (bytes "old")) = Returned app ∧
    config (app_resolver
              (app_run app [LogTick (stable_file (bytes "old error")) 1000 1000;
                            StateTick 1001]))
    = StateConfig_default.
Proof.
  destruct (AvatarApp_start (Some {[ "tmp"%string ]}) (Some "agent.log"%string)
              AssetsMissing (λ _ _, false) (Returned tt)
              (stable_file (bytes "old"))) as [app|msg] eqn:E;
    [|vm_compute in E; discriminate].
  exists app. split; [reflexivity|].
  apply (app_durations_are_the_defaults _ _ _ _ _ _ app _ E).
Defined.

(** Without a tailer the log-driven stamps never move. *)
Lemma app_step_no_tailer app ev :
  app_log_position app = None →
  app_log_position (app_step app ev) = None ∧
  last_running (timestamps (app_resolver (app_step app ev)))
  = last_running (timestamps (app_resolver app)) ∧
  last_success (timestamps (app_resolver (app_step app ev)))
  = last_success (timestamps (app_resolver app)) ∧
  last_error (timestamps (app_resolver (app_step app ev)))
  = last_error (timestamps (app_resolver app)) ∧
  last_log_activity (timestamps (app_resolver (app_step app ev)))
  = last_log_activity (timestamps (app_resolver app)).
Proof.
  intros Hnone. destruct ev as [event t | log t t' | now]; simpl.
  - by destruct (on_any_event _ _).
  - by rewrite Hnone.
  - done.
Qed.

Lemma app_run_no_tailer app evs :
  app_log_position app = None →
  last_running (timestamps (app_resolver (app_run app evs)))
  = last_running (timestamps (app_resolver app)) ∧
  last_success (timestamps (app_resolver (app_run app evs)))
  = last_success (timestamps (app_resolver app)) ∧
  last_error (timestamps (app_resolver (app_run app evs)))
  = last_error (timestamps (app_resolver app)) ∧
  last_log_activity (timestamps (app_resolver (app_run app evs)))
  = last_log_activity (timestamps (app_resolver app)).
Proof.
  revert app. induction evs as [|ev evs IH]; intros app Hnone; [done|].
  change (app_run app (ev :: evs)) with (app_run (app_step app ev) evs).
  destruct (app_step_no_tailer app ev Hnone) as (Hn & H1 & H2 & H3 & H4).
  destruct (IH _ Hn) as (G1 & G2 & G3 & G4).
  by rewrite G1, G2, G3, G4.
Qed.

(** X24. Started without a log path (none, or an empty one), the
    application never shows a log-driven state once the clock is six
    seconds past the epoch: whatever events arrive, the stamps of
    RUNNING, SUCCESS and ERROR and of generic log activity stay at 0.0,
    and the state resolved is IDLE, THINKING or TYPING. *)
Theorem no_log_path_no_log_states
  excl log_path assets gif_exists observer_start log
  (app : AvatarApp) (evs : list AppEvent) (now : Time.t) :
  AvatarApp_start excl log_path assets gif_exists observer_start log
  = Returned app →
  log_path = None ∨ log_path = Some EmptyString →
  6 <= now →
  let r := app_resolver (app_run app evs) in
  last_running (timestamps r) = 0 ∧ last_success (timestamps r) = 0 ∧
  last_error (timestamps r) = 0 ∧ last_log_activity (timestamps r) = 0 ∧
  (State_value (resolve r now) ≤ 2)%nat.
Proof.
  intros Hstart Hlp Hnow r.
  pose proof (app_durations_defaults_aux := app_run_config app evs).
  apply start_returns in Hstart as (Hr & _ & Hpos).
  specialize (Hpos Hlp).
  destruct (app_run_no_tailer app evs Hpos) as (H1 & H2 & H3 & H4).
  rewrite Hr in *. simpl in *. fold r in H1, H2, H3, H4, app_durations_defaults_aux.
  repeat (split; [assumption|]).
  pose proof (resolve_condition r now) as Hc.
  destruct (resolve r now) eqn:E; simpl; try lia;
    simpl in Hc; rewrite app_durations_defaults_aux in Hc;
    rewrite ?H1, ?H2, ?H3 in Hc; apply ltb_lt in Hc; simpl in Hc; lra.
Qed.

Lemma no_log_path_no_log_states_witness :
  ∃ app,
    AvatarApp_start None None AssetsMissing (λ _ _, false) (Returned tt)
      (mkLogFile (Returned false) (Raised "") (Raised "")) = Returned app ∧
    (State_value
       (resolve (app_resolver
                   (app_run app [FsEvent (mkEvent false "src/main.py") 1000;
                                 LogTick (stable_file (bytes "error")) 1000 1000]))
                1000.5) ≤ 2)%nat.
Proof.
  destruct (AvatarApp_start None None AssetsMissing (λ _ _, false) (Returned tt)
              (mkLogFile (Returned false) (Raised "") (Raised ""))) as [app|msg] eqn:E;
    [|vm_compute in E; discriminate].
  exists app. split; [reflexivity|].
  apply (no_log_path_no_log_states None None AssetsMissing (λ _ _, false)
           (Returned tt) (mkLogFile (Returned false) (Raised "") (Raised "")) app _ _ E);
    [by left | vm_compute; congruence].
Defined.

(** A burst of file system events moves the file-system stamp only. *)
Lemma fs_events_coalesce app evs t :
  Forall (λ e, ∃ event u, e = FsEvent event u) evs →
  app_project_watcher (app_run app evs) = app_project_watcher app ∧
  app_log_position (app_run app evs) = app_log_position app ∧
  app_overlay (app_run app evs) = app_overlay app ∧
  on_fs_activity t (app_resolver (app_run app evs))
  = on_fs_activity t (app_resolver app).
Proof.
  intros Hall. revert app. induction Hall as [|ev evs (event & u & ->) _ IH];
    intros app; [done|].
  change (app_run app (FsEvent event u :: evs))
    with (app_run (app_step app (FsEvent event u)) evs).
  destruct (IH (app_step app (FsEvent event u))) as (H1 & H2 & H3 & H4).
  rewrite H1, H2, H3, H4. simpl.
  by destruct (on_any_event (app_project_watcher app) event).
Qed.

(** X25. File system events are coalesced: after a burst of them, however
    long and whatever the paths, the application is as if only the last
    reported one had arrived. Only the file-system stamp has moved, to
    the clock reading of that last event. *)
Theorem fs_burst_is_one_activity
  (app : AvatarApp) (evs : list AppEvent)
  (event : FileSystemEvent) (t : Time.t) :
  Forall (λ e, ∃ event u, e = FsEvent event u) evs →
  on_any_event (app_project_watcher app) event = true →
  app_run app (evs ++ [FsEvent event t]) = app_step app (FsEvent event t).
Proof.
  intros Hall Hemit. rewrite app_run_app.
  destruct (fs_events_coalesce app evs t Hall) as (H1 & H2 & H3 & H4).
  unfold app_run at 1. simpl. rewrite H1, H2, H3, H4, Hemit. reflexivity.
Qed.

Lemma fs_burst_is_one_activity_witness :
  let app := mkApp (fresh_resolver StateConfig_default)
               (ProjectWatcher_init None) None
               (mkOverlay None None [] [] []) in
  app_resolver
    (app_run app ([FsEvent (mkEvent false "a.py") 1000;
                   FsEvent (mkEvent false ".git/index") 1001] ++
                  [FsEvent (mkEvent false "b.py") 1002]))
  = on_fs_activity 1002 (fresh_resolver StateConfig_default).
Proof.
  intros app.
  rewrite (fs_burst_is_one_activity app
             [FsEvent (mkEvent false "a.py") 1000;
              FsEvent (mkEvent false ".git/index") 1001]
             (mkEvent false "b.py") 1002).
  - reflexivity.
  - repeat constructor; eauto.
  - vm_compute. reflexivity.
Defined.

(** X26. The overlay shows what the latest tick of the state timer
    resolved: after a state tick the current state of the overlay is the
    state resolved from the ledger as it was at the tick, and the file
    system events and log polls that follow leave the overlay as it is
    until the next tick. *)
Theorem overlay_shows_last_tick
  (app : AvatarApp) (before after : list AppEvent) (now : Time.t) :
  Forall (λ e, ∀ u, e ≠ StateTick u) after →
  current_state (app_overlay (app_run app (before ++ StateTick now :: after)))
  = Some (resolve (app_resolver (app_run app before)) now).
Proof.
  intros Hafter. rewrite app_run_app.
  change (app_run (app_run app before) (StateTick now :: after))
    with (app_run (app_step (app_run app before) (StateTick now)) after).
  assert (Hkeep : ∀ a, app_overlay (app_run a after) = app_overlay a).
  { induction Hafter as [|ev evs Hev _ IH]; intros a; [done|].
    change (app_run a (ev :: evs)) with (app_run (app_step a ev) evs).
    rewrite IH. destruct ev as [event u | lg u u' | u]; simpl.
    - by destruct (on_any_event _ _).
    - by destruct (app_log_position a).
    - by destruct (Hev u). }
  rewrite Hkeep. simpl. apply set_state_fields.
Qed.

Lemma overlay_shows_last_tick_witness :
  let app := mkApp (fresh_resolver StateConfig_default)
               (ProjectWatcher_init None) None
               (mkOverlay (Some IDLE) None [] [] []) in
  current_state
    (app_overlay
       (app_run app ([FsEvent (mkEvent false "a.py") 1000] ++
                     StateTick 1000.5 :: [FsEvent (mkEvent false "b.py") 1005])))
  = Some TYPING.
Proof.
  intros app. rewrite overlay_shows_last_tick.
  - vm_compute. reflexivity.
  - repeat constructor. discriminate.
Defined.

(** ** Errors that are not swallowed *)

(** X27. The existence test of the log path is outside every handler: an
    error it raises (a permission error on the directory, say) comes out
    of [check] with the cursor and the ledger untouched, and out of the
    constructor of the tailer, and so out of [start], when a log path was
    given. *)
Theorem exists_error_propagates
  (f : LogFile) (t t' : Time.t) (self : LogTailer) (msg : string) :
  path_exists f = Raised msg →
  check f t t' self = (Raised msg, self) ∧
  (∀ r, LogTailer_init f r = Raised msg) ∧
  (∀ excl c path assets gif_exists ov,
     AvatarOverlay_init assets gif_exists None = Returned ov →
     AvatarApp_start excl (Some (String c path)) assets gif_exists
                     (Returned tt) f = Raised msg).
Proof.
  intros He. split; [|split].
  - unfold check, mbind, Tail_bind, call. by rewrite He.
  - intros r. unfold LogTailer_init. by rewrite He.
  - intros excl c path assets gif_exists ov Hov.
    unfold AvatarApp_start. simpl. rewrite Hov.
    unfold LogTailer_init. by rewrite He.
Qed.

Lemma exists_error_propagates_witness :
  let f := mkLogFile (Raised "PermissionError") (Returned 10%nat)
             (Returned (bytes "0123456789")) in
  let self := mkTailer (fresh_resolver StateConfig_default) 4 in
  check f 1000 1000 self = (Raised "PermissionError", self).
Proof.
  intros f self.
  apply (exists_error_propagates f 1000 1000 self "PermissionError" eq_refl).
Defined.
